(** * bitECS component membership core (src/Component.js)

    A shallow embedding of [Component.js]: the bitflag / generation
    allocator, the per-world component registry, the add / remove
    membership protocol with its query synchronisation, and the recursive
    attribute assignment.  JavaScript objects that are shared by reference
    (query objects, component stores) live in explicit heaps keyed by an
    object identity; exceptions are an outcome next to the state, because a
    JavaScript [throw] does not roll anything back. *)

From Stdlib Require Import ZArith Lia Bool List.
From stdpp Require Import base option numbers list gmap strings.

Local Open Scope Z_scope.
#[local] Set Warnings "-register-all".

(** ** JavaScript numbers as far as this file uses them *)

Module JS.

(** [ToInt32] of the language specification, on integral numbers. *)
Definition ToInt32 (z : Z) : Z :=
  let r := z mod 2 ^ 32 in
  if 2 ^ 31 <=? r then r - 2 ^ 32 else r.

(** Storing into a [Uint32Array] wraps modulo 2^32. *)
Definition ToUint32 (z : Z) : Z := z mod 2 ^ 32.

(** An element read from a typed array is a number, or [undefined] when
    the index is out of range; the bit operators turn [undefined] into 0. *)
Definition operand (v : option Z) : Z :=
  match v with
  | Some z => ToInt32 z
  | None => 0
  end.

(** [a & b], [a | b] and [~a]: signed 32-bit results. *)
Definition bitand (a b : option Z) : Z := Z.land (operand a) (operand b).
Definition bitor (a b : option Z) : Z := Z.lor (operand a) (operand b).
Definition bitnot (a : option Z) : Z := Z.lnot (operand a).

(** The element types of the typed arrays a component store is made of. *)
Inductive ElementType :=
| Int8 | Uint8 | Uint8Clamped
| Int16 | Uint16
| Int32 | Uint32
| Float32 | Float64.

Definition wrap_unsigned (bits n : Z) : Z := n mod 2 ^ bits.

Definition wrap_signed (bits n : Z) : Z :=
  let r := n mod 2 ^ bits in
  if 2 ^ (bits - 1) <=? r then r - 2 ^ bits else r.

(** The nearest integer with a significand of [p] bits, ties to the even
    significand: an integer of at most [p] bits is kept, a longer one loses
    its low bits. *)
Definition round_significand (p n : Z) : Z :=
  let a := Z.abs n in
  let k := Z.log2 a + 1 - p in
  if k <=? 0 then n else
  let q := Z.shiftr a k in
  let rest := a - Z.shiftl q k in
  let half := 2 ^ (k - 1) in
  let q' := if (half <? rest) || ((rest =? half) && Z.odd q) then q + 1 else q in
  Z.sgn n * Z.shiftl q' k.

(** The number an element holds after [array[i] = n], for an integral
    number [n]: integer arrays wrap, the clamped one saturates, a
    [Float32Array] rounds to 24 significant bits (16777217 is stored as
    16777216) and a [Float64Array] keeps the number, which is a double
    already.  A [Float32Array] holds an infinity for a number of magnitude
    2^128 - 2^103 or more; the cells of this model have no infinity, so
    such data is outside it. *)
Definition stored (t : ElementType) (n : Z) : Z :=
  match t with
  | Int8 => wrap_signed 8 n
  | Uint8 => wrap_unsigned 8 n
  | Uint8Clamped => Z.max 0 (Z.min 255 n)
  | Int16 => wrap_signed 16 n
  | Uint16 => wrap_unsigned 16 n
  | Int32 => wrap_signed 32 n
  | Uint32 => wrap_unsigned 32 n
  | Float32 => round_significand 24 n
  | Float64 => n
  end.

End JS.

(** ** Data model *)

(** A component handle as the functions receive it: [null] / [undefined],
    or the store object, known by its identity. *)
Inductive Component :=
| Nullish
| Obj (id : nat).

(** Property keys of JavaScript objects: canonical array indices and every
    other name. *)
Inductive Key :=
| KIndex (n : nat)
| KName (s : string).

#[global] Instance Key_eq_dec : EqDecision Key.
Proof. solve_decision. Defined.

(** The [data] argument of the attribute functions.  Numbers are integral
    here; a property list is in [Object.keys] order. *)
Inductive JsVal :=
| VUndefined
| VNull
| VBoolean (b : bool)
| VNumber (n : Z)
| VString (s : string)
| VObject (props : list (Key * JsVal)).

(** What a component section can be: a nested section object, a typed
    array leaf, or (when a key is missing or misused) [undefined] or a
    plain number. *)
Inductive StoreVal :=
| SUndefined
| SNumber (n : Z)
| STypedArray (t : JS.ElementType) (cells : list Z)
| SObject (fields : list (Key * StoreVal)).

(** A query object, as far as [Component.js] touches it.  The three
    sparse sets and the result set are finite sets of entity ids. *)
Record Query := mkQuery {
  allComponents : list nat;
  toRemove : gset nat;
  entered : gset nat;
  exited : gset nat;
  results : gset nat;
}.

(** The value stored in [world[$componentMap]] for a component.  The three
    query sets hold references to query objects, in insertion order. *)
Record Registration := mkRegistration {
  generationId : Z;
  bitflag : Z;
  store : nat;
  queries : list nat;
  notQueries : list nat;
  changedQueries : list nat;
}.

(** The world object: one field per symbol-keyed property the file uses. *)
Record World := mkWorld {
  world_bitflag : Z;
  world_size : nat;
  world_entityMasks : list (list Z);
  world_componentMap : gmap nat Registration;
  world_queries : list nat;
  world_entityComponents : gmap nat (list nat);
  world_entitySparseSet : gset nat;
}.

(** The world together with the objects it shares by reference. *)
Record State := mkState {
  world : World;
  queryObjects : gmap nat Query;
  componentStores : gmap nat StoreVal;
}.

(** ** Outcomes and the state monad *)

Inductive Error :=
| EntityUndefined      (* 'bitECS - entity is undefined.' *)
| EntityNotFound       (* 'bitECS - entity does not exist in the world.' *)
| NullComponent        (* 'bitECS - Cannot register null or undefined component' *)
| TypeError.           (* raised by the language itself *)

Inductive Outcome (A : Type) :=
| Returned (a : A)
| Thrown (e : Error).
Arguments Returned {A} a.
Arguments Thrown {A} e.

Definition M (S A : Type) : Type := S -> Outcome A * S.

Definition ret {S A} (a : A) : M S A := fun s => (Returned a, s).
Definition throw {S A} (e : Error) : M S A := fun s => (Thrown e, s).
Definition bind {S A B} (m : M S A) (k : A -> M S B) : M S B :=
  fun s =>
    match m s with
    | (Returned a, s') => k a s'
    | (Thrown e, s') => (Thrown e, s')
    end.
Definition get {S} : M S S := fun s => (Returned s, s).
Definition modify {S} (f : S -> S) : M S unit := fun s => (Returned tt, f s).
Definition lift {S A} (o : Outcome A) : M S A := fun s => (o, s).

Declare Scope js_scope.
Delimit Scope js_scope with js.
Notation "x <- m ;; k" := (bind m (fun x => k))
  (at level 100, m at next level, right associativity) : js_scope.
Notation "m ;; k" := (bind m (fun _ => k))
  (at level 100, right associativity) : js_scope.
Local Open Scope js_scope.

(** [xs.forEach(f)] for an effectful callback. *)
Fixpoint forEach {S A} (xs : list A) (f : A -> M S unit) : M S unit :=
  match xs with
  | [] => ret tt
  | x :: rest => f x ;; forEach rest f
  end.

(** ** Field updates *)

Definition set_world_bitflag (b : Z) (w : World) : World :=
  mkWorld b (world_size w) (world_entityMasks w) (world_componentMap w)
          (world_queries w) (world_entityComponents w) (world_entitySparseSet w).

Definition set_world_entityMasks (m : list (list Z)) (w : World) : World :=
  mkWorld (world_bitflag w) (world_size w) m (world_componentMap w)
          (world_queries w) (world_entityComponents w) (world_entitySparseSet w).

Definition set_world_componentMap (m : gmap nat Registration) (w : World) : World :=
  mkWorld (world_bitflag w) (world_size w) (world_entityMasks w) m
          (world_queries w) (world_entityComponents w) (world_entitySparseSet w).

Definition set_world_entityComponents (m : gmap nat (list nat)) (w : World) : World :=
  mkWorld (world_bitflag w) (world_size w) (world_entityMasks w) (world_componentMap w)
          (world_queries w) m (world_entitySparseSet w).

Definition set_world (w : World) (s : State) : State :=
  mkState w (queryObjects s) (componentStores s).

Definition set_queryObjects (q : gmap nat Query) (s : State) : State :=
  mkState (world s) q (componentStores s).

Definition set_componentStores (c : gmap nat StoreVal) (s : State) : State :=
  mkState (world s) (queryObjects s) c.

Definition modify_world (f : World -> World) : M State unit :=
  modify (fun s => set_world (f (world s)) s).

(** ** Built-in containers *)

(** [set.add(x)] on a JavaScript [Set], kept as the list of its elements in
    insertion order. *)
Definition Set_add (x : nat) (xs : list nat) : list nat :=
  if decide (x ∈ xs) then xs else xs ++ [x].

(** [set.delete(x)]. *)
Definition Set_delete (x : nat) (xs : list nat) : list nat :=
  filter (fun y => y ≠ x) xs.

(** [map.get(component)] and [map.has(component)] on the component map. *)
Definition componentMap_get (w : World) (component : Component) : option Registration :=
  match component with
  | Nullish => None
  | Obj id => world_componentMap w !! id
  end.

Definition componentMap_has (w : World) (component : Component) : bool :=
  bool_decide (is_Some (componentMap_get w component)).

(** [world[$entityMasks][generationId]]: [undefined] outside the array. *)
Definition generation (w : World) (g : Z) : option (list Z) :=
  if g <? 0 then None else world_entityMasks w !! Z.to_nat g.

(** ** The allocator and the registry *)

(** [incrementBitflag], lines 56-62. *)
Definition incrementBitflag : M State unit :=
  modify_world (fun w => set_world_bitflag (world_bitflag w * 2) w) ;;
  s <- get ;;
  if 2 ^ 31 <=? world_bitflag (world s) then
    modify_world (set_world_bitflag 1) ;;
    modify_world (fun w =>
      set_world_entityMasks
        (world_entityMasks w ++ [replicate (world_size w) 0]) w)
  else ret tt.

(** The callback of [world[$queries].forEach] in [registerComponent]:
    the queries whose [allComponents] includes the component. *)
Definition interested (objs : gmap nat Query) (id : nat) (qs : list nat) : list nat :=
  foldl (fun acc q =>
           match objs !! q with
           | Some qo => if decide (id ∈ allComponents qo) then Set_add q acc else acc
           | None => acc
           end) [] qs.

(** [registerComponent], lines 71-94. *)
Definition registerComponent (component : Component) : M State unit :=
  match component with
  | Nullish => throw NullComponent
  | Obj id =>
      s <- get ;;
      let queries := interested (queryObjects s) id (world_queries (world s)) in
      let notQueries := [] in
      let changedQueries := [] in
      modify_world (fun w =>
        set_world_componentMap
          (<[id := {| generationId := Z.of_nat (length (world_entityMasks w)) - 1;
                      bitflag := world_bitflag w;
                      store := id;
                      queries := queries;
                      notQueries := notQueries;
                      changedQueries := changedQueries |}]>
             (world_componentMap w)) w) ;;
      incrementBitflag
  end.

(** [registerComponents], lines 102-104. *)
Definition registerComponents (components : list Component) : M State unit :=
  forEach components registerComponent.

(** [hasComponent], lines 114-120.  It only reads the world. *)
Definition hasComponent (w : World) (component : Component) (eid : nat) : Outcome bool :=
  match componentMap_get w component with
  | None => Returned false
  | Some registeredComponent =>
      match generation w (generationId registeredComponent) with
      | None => Thrown TypeError
      | Some masks =>
          let mask := masks !! eid in
          Returned (JS.bitand mask (Some (bitflag registeredComponent))
                    =? bitflag registeredComponent)
      end
  end.

(** ** Collaborators outside [Component.js] *)

(** The sparse sets of the entity allocator and of the query objects
    ([world[$entitySparseSet]], [q.toRemove], [q.entered], [q.exited]) are
    not defined in this file; they are kept as finite sets of entity ids. *)
Module SparseSet.

(** Modelled from the spec: the sparse set's [contains], missing from this
    file. *)
Definition has (s : gset nat) (eid : nat) : bool := bool_decide (eid ∈ s).

(** Modelled from the spec: the sparse set's [add], missing from this
    file. *)
Definition add (s : gset nat) (eid : nat) : gset nat := s ∪ {[eid]}.

(** Modelled from the spec: the sparse set's [remove], missing from this
    file. *)
Definition remove (s : gset nat) (eid : nat) : gset nat := s ∖ {[eid]}.

End SparseSet.

(** The query engine ([Query.js]) and the storage layer ([Storage.js]) are
    imported, not defined here.  The engine's functions see the world and
    the query object they are given; [resetStoreFor] sees the component
    store.  None of them throws. *)
Class Collaborators := {
  queryCheckEntity : World -> Query -> nat -> bool;
  queryAddEntity : Query -> nat -> Query;
  queryRemoveEntity : World -> Query -> nat -> Query;
  resetStoreFor : StoreVal -> nat -> StoreVal;
}.

Definition set_toRemove (x : gset nat) (q : Query) : Query :=
  mkQuery (allComponents q) x (entered q) (exited q) (results q).
Definition set_entered (x : gset nat) (q : Query) : Query :=
  mkQuery (allComponents q) (toRemove q) x (exited q) (results q).
Definition set_exited (x : gset nat) (q : Query) : Query :=
  mkQuery (allComponents q) (toRemove q) (entered q) x (results q).

(** Running a function on the query object behind a reference. *)
Definition on_query (q : nat) (f : World -> Query -> Query) : M State unit :=
  modify (fun s => set_queryObjects (alter (f (world s)) q (queryObjects s)) s).

(** The component object behind a handle; an object the heap does not list
    has no properties. *)
Definition deref (stores : gmap nat StoreVal) (id : nat) : StoreVal :=
  default (SObject []) (stores !! id).

(** [world[$entityMasks][generationId][eid] = v] on a [Uint32Array]: the
    value wraps, and an index outside the array is ignored. *)
Definition write_mask (g : Z) (eid : nat) (v : Z) (w : World) : World :=
  set_world_entityMasks
    (alter (fun masks => <[eid := JS.ToUint32 v]> masks) (Z.to_nat g)
           (world_entityMasks w)) w.

(** [world[$entitySparseSet].has(eid)], the existence check that opens
    every mutation after the test for [undefined]. *)
Definition entityExists (w : World) (eid : nat) : bool :=
  SparseSet.has (world_entitySparseSet w) eid.

(** ** Attribute assignment *)

(** Own-property lookup and assignment on a property list. *)
Fixpoint assoc {V} (k : Key) (props : list (Key * V)) : option V :=
  match props with
  | [] => None
  | (k', v) :: rest => if decide (k' = k) then Some v else assoc k rest
  end.

Fixpoint assoc_set {V} (k : Key) (v : V) (props : list (Key * V)) : list (Key * V) :=
  match props with
  | [] => [(k, v)]
  | (k', v') :: rest =>
      if decide (k' = k) then (k, v) :: rest else (k', v') :: assoc_set k v rest
  end.

(** The property names a section answers to without owning them: those of
    [Object.prototype], of the typed-array prototypes and of
    [Number.prototype], as the language standard lists them. *)
Definition prototype_names : list string :=
  [ "constructor"; "hasOwnProperty"; "isPrototypeOf"; "propertyIsEnumerable";
    "toLocaleString"; "toString"; "valueOf"; "__proto__";
    "__defineGetter__"; "__defineSetter__"; "__lookupGetter__"; "__lookupSetter__";
    "buffer"; "byteLength"; "byteOffset"; "length"; "BYTES_PER_ELEMENT";
    "at"; "copyWithin"; "entries"; "every"; "fill"; "filter"; "find"; "findIndex";
    "findLast"; "findLastIndex"; "forEach"; "includes"; "indexOf"; "join"; "keys";
    "lastIndexOf"; "map"; "reduce"; "reduceRight"; "reverse"; "set"; "slice";
    "some"; "sort"; "subarray"; "toReversed"; "toSorted"; "values"; "with";
    "toExponential"; "toFixed"; "toPrecision" ]%string.

Definition inherited (k : Key) : bool :=
  match k with
  | KIndex _ => false
  | KName s => existsb (String.eqb s) prototype_names
  end.

(** Data none of whose keys, at any depth, is such a name. *)
Fixpoint own_keys_only (data : JsVal) : bool :=
  match data with
  | VObject props =>
      (fix each (props : list (Key * JsVal)) : bool :=
         match props with
         | [] => true
         | (k, v) :: rest => negb (inherited k) && own_keys_only v && each rest
         end) props
  | _ => true
  end.

(** [componentSection[k]] for a key that is not [inherited]: reading a
    property of [undefined] throws; a number has no such property; a typed
    array answers for its indices; an object answers for the properties it
    owns.  For an inherited key the language finds a built-in object or
    number on the prototype chain, which is not part of a component store
    and which this lookup does not return: data with such keys is outside
    the model of the walk. *)
Definition get_prop (section : StoreVal) (k : Key) : Outcome StoreVal :=
  match section with
  | SUndefined => Thrown TypeError
  | SNumber _ => Returned SUndefined
  | STypedArray _ cells =>
      match k with
      | KIndex i => Returned (from_option SNumber SUndefined (cells !! i))
      | KName _ => Returned SUndefined
      end
  | SObject fields => Returned (default SUndefined (assoc k fields))
  end.

(** [target[eid] = n], in strict mode (the file is an ES module). *)
Definition assign_index (target : StoreVal) (eid : nat) (n : Z) : Outcome StoreVal :=
  match target with
  | SUndefined => Thrown TypeError
  | SNumber _ => Thrown TypeError
  | STypedArray t cells => Returned (STypedArray t (<[eid := JS.stored t n]> cells))
  | SObject fields => Returned (SObject (assoc_set (KIndex eid) (SNumber n) fields))
  end.

(** The object behind [componentSection[k]] was changed in place: the
    section sees the change when it owns that property. *)
Definition written_back (section : StoreVal) (k : Key) (child : StoreVal) : StoreVal :=
  match section with
  | SObject fields =>
      match assoc k fields with
      | Some (STypedArray _ _) | Some (SObject _) => SObject (assoc_set k child fields)
      | _ => section
      end
  | _ => section
  end.

(** [recursivelySetComponentAttributes], lines 22-41, as a computation on
    the section it is given.  [typeof null] is ['object'], and
    [Object.keys(null)] throws. *)
Fixpoint recursivelySetComponentAttributes (eid : nat) (data : JsVal)
    : M StoreVal unit :=
  match data with
  | VObject props =>
      (fix each (props : list (Key * JsVal)) : M StoreVal unit :=
         match props with
         | [] => ret tt
         | (k, v) :: rest =>
             (match v with
              | VNumber n =>
                  componentSection <- get ;;
                  target <- lift (get_prop componentSection k) ;;
                  target' <- lift (assign_index target eid n) ;;
                  modify (fun section => written_back section k target')
              | _ =>
                  componentSection <- get ;;
                  child <- lift (get_prop componentSection k) ;;
                  fun section =>
                    let '(r, child') := recursivelySetComponentAttributes eid v child in
                    (r, written_back section k child')
              end) ;;
             each rest
         end) props
  | VNull => throw TypeError
  | VUndefined | VBoolean _ | VNumber _ | VString _ => ret tt
  end.

Section Component.
Context `{Collaborators}.

(** [addComponent], lines 130-161. *)
Definition addComponent (component : Component) (eid : option nat)
    (reset : bool) : M State unit :=
  match eid with
  | None => throw EntityUndefined
  | Some e =>
  s <- get ;;
  if negb (entityExists (world s) e) then throw EntityNotFound else
  (if negb (componentMap_has (world s) component)
   then registerComponent component else ret tt) ;;
  s <- get ;;
  present <- lift (hasComponent (world s) component e) ;;
  if present then ret tt else
  match component, componentMap_get (world s) component with
  | Obj id, Some c =>
      match generation (world s) (generationId c) with
      | None => throw TypeError
      | Some masks =>
          (* Add bitflag to entity bitmask *)
          modify_world
            (write_mask (generationId c) e
               (JS.bitor (masks !! e) (Some (bitflag c)))) ;;
          forEach (queries c) (fun q =>
            on_query q (fun w qo =>
              let qo := set_toRemove (SparseSet.remove (toRemove qo) e) qo in
              let match_ := queryCheckEntity w qo e in
              let qo :=
                if match_
                then queryAddEntity (set_exited (SparseSet.remove (exited qo) e) qo) e
                else qo in
              if negb match_
              then queryRemoveEntity w (set_entered (SparseSet.remove (entered qo) e) qo) e
              else qo)) ;;
          s <- get ;;
          match world_entityComponents (world s) !! e with
          | None => throw TypeError
          | Some attached =>
              modify_world (fun w =>
                set_world_entityComponents
                  (<[e := Set_add id attached]> (world_entityComponents w)) w) ;;
              (* Zero out each property value *)
              if reset
              then modify (fun s =>
                     set_componentStores
                       (<[id := resetStoreFor (deref (componentStores s) id) e]>
                          (componentStores s)) s)
              else ret tt
          end
      end
  | _, _ => throw TypeError
  end
  end.

(** [removeComponent], lines 217-247. *)
Definition removeComponent (component : Component) (eid : option nat)
    (reset : bool) : M State unit :=
  match eid with
  | None => throw EntityUndefined
  | Some e =>
  s <- get ;;
  if negb (entityExists (world s) e) then throw EntityNotFound else
  present <- lift (hasComponent (world s) component e) ;;
  if negb present then ret tt else
  match component, componentMap_get (world s) component with
  | Obj id, Some c =>
      match generation (world s) (generationId c) with
      | None => throw TypeError
      | Some masks =>
          (* Remove flag from entity bitmask *)
          modify_world
            (write_mask (generationId c) e
               (JS.bitand (masks !! e) (Some (JS.bitnot (Some (bitflag c)))))) ;;
          forEach (queries c) (fun q =>
            on_query q (fun w qo =>
              let qo := set_toRemove (SparseSet.remove (toRemove qo) e) qo in
              let match_ := queryCheckEntity w qo e in
              let qo :=
                if match_
                then queryAddEntity (set_exited (SparseSet.remove (exited qo) e) qo) e
                else qo in
              if negb match_
              then queryRemoveEntity w (set_entered (SparseSet.remove (entered qo) e) qo) e
              else qo)) ;;
          s <- get ;;
          match world_entityComponents (world s) !! e with
          | None => throw TypeError
          | Some attached =>
              modify_world (fun w =>
                set_world_entityComponents
                  (<[e := Set_delete id attached]> (world_entityComponents w)) w) ;;
              (* Zero out each property value *)
              if reset
              then modify (fun s =>
                     set_componentStores
                       (<[id := resetStoreFor (deref (componentStores s) id) e]>
                          (componentStores s)) s)
              else ret tt
          end
      end
  | _, _ => throw TypeError
  end
  end.

(** [updateComponent], lines 171-177. *)
Definition updateComponent (component : Component) (eid : option nat)
    (data : JsVal) : M State unit :=
  match eid with
  | None => throw EntityUndefined
  | Some e =>
  s <- get ;;
  if negb (entityExists (world s) e) then throw EntityNotFound else
  present <- lift (hasComponent (world s) component e) ;;
  if negb present then ret tt else
  match component with
  | Obj id =>
      fun s =>
        let '(r, section) :=
          recursivelySetComponentAttributes e data (deref (componentStores s) id) in
        (r, set_componentStores (<[id := section]> (componentStores s)) s)
  | Nullish => throw TypeError
  end
  end.

(** [addAndPartiallyFillComponent], lines 188-192. *)
Definition addAndPartiallyFillComponent (component : Component)
    (eid : option nat) (data : JsVal) (reset : bool) : M State unit :=
  addComponent component eid reset ;;
  updateComponent component eid data.

(** [addAndFillComponent], lines 205-207. *)
Definition addAndFillComponent (component : Component)
    (eid : option nat) (data : JsVal) (reset : bool) : M State unit :=
  addAndPartiallyFillComponent component eid data reset.

(** *** Default parameters

    The four functions above are the bodies, run with [reset] bound.  A
    caller may leave the last argument out, or pass [undefined]: the
    parameter then takes the default of its declaration, [reset=false] on
    lines 130, 188 and 205 and [reset=true] on line 217. *)
Definition call_addComponent (component : Component) (eid : option nat)
    (reset : option bool) : M State unit :=
  addComponent component eid (default false reset).

Definition call_removeComponent (component : Component) (eid : option nat)
    (reset : option bool) : M State unit :=
  removeComponent component eid (default true reset).

Definition call_addAndPartiallyFillComponent (component : Component)
    (eid : option nat) (data : JsVal) (reset : option bool) : M State unit :=
  addAndPartiallyFillComponent component eid data (default false reset).

Definition call_addAndFillComponent (component : Component)
    (eid : option nat) (data : JsVal) (reset : option bool) : M State unit :=
  addAndFillComponent component eid data (default false reset).

End Component.

(** ** Reading the state *)

(** The word [world[$entityMasks][g][e]] as an unsigned number, 0 where the
    array has no such element. *)
Definition mask_word (w : World) (g : Z) (e : nat) : Z :=
  default 0 (generation w g ≫= (fun masks => masks !! e)).

(** ** Well-formed worlds *)

(** The registration record invariant of the data model: a power of two
    between 1 and 2^30. *)
Definition valid_bitflag (b : Z) : Prop :=
  0 < b < 2 ^ 31 ∧ b = 2 ^ Z.log2 b.

(** What the collaborators keep true of a world: the cursor is a usable
    bit, there is at least one generation, every generation is a
    [Uint32Array] of the world's size, every record points into the masks
    with a usable bit and an interested set without repetition, and every
    entity of the existence set is inside the arrays and has its
    attached-component set. *)
Record wf_world (w : World) : Prop := {
  wf_cursor : valid_bitflag (world_bitflag w);
  wf_generations : world_entityMasks w ≠ [];
  wf_masks :
    Forall (fun masks => length masks = world_size w
                         ∧ Forall (fun m => 0 <= m < 2 ^ 32) masks)
           (world_entityMasks w);
  wf_registry :
    map_Forall (fun _ r =>
                  0 <= generationId r < Z.of_nat (length (world_entityMasks w))
                  ∧ valid_bitflag (bitflag r)
                  ∧ NoDup (queries r))
               (world_componentMap w);
  wf_entities :
    set_Forall (fun e => (e < world_size w)%nat
                         ∧ is_Some (world_entityComponents w !! e))
               (world_entitySparseSet w);
}.

(** A world as [createWorld] leaves it, as far as the claims on the
    allocator name it: cursor 1 and one generation. *)
Definition fresh (w : World) : Prop :=
  world_bitflag w = 1 ∧ length (world_entityMasks w) = 1%nat.

(** ** The synchronisation step in the spec's words *)

Section Synchronize.
Context `{Collaborators}.

(** Cancel the pending removal, recompute the match on the query so
    changed, then either drop the stale exit signal and insert, or drop the
    stale enter signal and remove.  The query objects are written out field
    by field. *)
Definition synchronize (w : World) (e : nat) (q : Query) : Query :=
  let pending := toRemove q ∖ {[e]} in
  if queryCheckEntity w
       (mkQuery (allComponents q) pending (entered q) (exited q) (results q)) e
  then queryAddEntity
         (mkQuery (allComponents q) pending (entered q) (exited q ∖ {[e]}) (results q)) e
  else queryRemoveEntity w
         (mkQuery (allComponents q) pending (entered q ∖ {[e]}) (exited q) (results q)) e.

(** One pass over the interested set. *)
Definition synchronize_all (w : World) (e : nat) (qs : list nat)
    (objs : gmap nat Query) : gmap nat Query :=
  foldl (fun objs q => alter (synchronize w e) q objs) objs qs.

End Synchronize.

(** ** A concrete set of collaborators *)

Definition set_results (x : gset nat) (q : Query) : Query :=
  mkQuery (allComponents q) (toRemove q) (entered q) (exited q) x.

(** Modelled from the spec: [queryCheckEntity] of [Query.js], missing from
    this file; the match is the conjunction of the memberships of the
    query's required components. *)
Definition spec_queryCheckEntity (w : World) (q : Query) (e : nat) : bool :=
  forallb (fun c => match hasComponent w (Obj c) e with
                    | Returned b => b
                    | Thrown _ => false
                    end) (allComponents q).

(** Modelled from the spec: [queryAddEntity] of [Query.js], missing from
    this file; it inserts into the result set and records an entered
    signal. *)
Definition spec_queryAddEntity (q : Query) (e : nat) : Query :=
  set_results (results q ∪ {[e]}) (set_entered (SparseSet.add (entered q) e) q).

(** Modelled from the spec: [queryRemoveEntity] of [Query.js], missing
    from this file; it takes the entity out of the results and records an
    exit signal. *)
Definition spec_queryRemoveEntity (w : World) (q : Query) (e : nat) : Query :=
  if SparseSet.has (results q) e
  then set_results (results q ∖ {[e]}) (set_exited (SparseSet.add (exited q) e) q)
  else q.

(** Modelled from the spec: [resetStoreFor] of [Storage.js], missing from
    this file; it zeroes every leaf field for one entity. *)
Fixpoint spec_resetStoreFor (store : StoreVal) (e : nat) : StoreVal :=
  match store with
  | STypedArray t cells => STypedArray t (<[e := 0]> cells)
  | SObject fields =>
      SObject (map (fun kv => (kv.1, spec_resetStoreFor kv.2 e)) fields)
  | SUndefined | SNumber _ => store
  end.

(** The collaborators the examples run with. *)
Definition spec_collaborators : Collaborators := {|
  queryCheckEntity := spec_queryCheckEntity;
  queryAddEntity := spec_queryAddEntity;
  queryRemoveEntity := spec_queryRemoveEntity;
  resetStoreFor := spec_resetStoreFor;
|}.

(** ** Example states *)

Module Example.

Definition pos := KName "pos".
Definition x := KName "x".
Definition y := KName "y".
Definition hp := KName "hp".

(** A component with schema [{pos:{x,y}, hp}] and capacity 4; entity 1
    carries stale values. *)
Definition store0 : StoreVal :=
  SObject [(pos, SObject [(x, STypedArray JS.Float32 [0; 7; 0; 0]);
                          (y, STypedArray JS.Float32 [0; 8; 0; 0])]);
           (hp, STypedArray JS.Uint8 [0; 9; 0; 0])].

(** A query over component 0. *)
Definition query0 : Query := mkQuery [0%nat] ∅ ∅ ∅ ∅.

(** A fresh world of size 4 with entities 0 and 1 and one live query. *)
Definition world0 : World := {|
  world_bitflag := 1;
  world_size := 4;
  world_entityMasks := [[0; 0; 0; 0]];
  world_componentMap := ∅;
  world_queries := [5%nat];
  world_entityComponents := <[0%nat := []]> (<[1%nat := []]> ∅);
  world_entitySparseSet := {[0%nat; 1%nat]};
|}.

Definition state0 : State := {|
  world := world0;
  queryObjects := {[5%nat := query0]};
  componentStores := {[0%nat := store0]};
|}.

(** The same after [registerComponent(world, C0)]. *)
Definition state1 : State :=
  (registerComponent (Obj 0) state0).2.

(** The data of the nested-assignment property. *)
Definition data0 : JsVal :=
  VObject [(pos, VObject [(x, VNumber 1); (y, VNumber 2)]);
           (hp, VNumber 10)].

(** The state after the example component was added to entity 1. *)
Definition state2 : State :=
  (@addComponent spec_collaborators (Obj 0) (Some 1%nat) false state0).2.

(** The registered example component with entity 1 detached from it, while
    the query still has the entity waiting in its removal queue and among
    its exit signals, as a deferred removal leaves them. *)
Definition state_exited : State :=
  set_queryObjects {[5%nat := mkQuery [0%nat] {[1%nat]} ∅ {[1%nat]} {[1%nat]}]} state1.

(** The example component attached to entity 1, while the query has the
    entity among its results and its enter signals, and in its removal
    queue. *)
Definition state_entered : State :=
  set_queryObjects {[5%nat := mkQuery [0%nat] {[1%nat]} {[1%nat]} ∅ {[1%nat]}]} state2.

End Example.

(** ** The allocator step, in closed form *)

(** The world after [incrementBitflag]. *)
Definition next_cursor (w : World) : World :=
  if 2 ^ 31 <=? world_bitflag w * 2
  then set_world_entityMasks
         (world_entityMasks w ++ [replicate (world_size w) 0])
         (set_world_bitflag 1 w)
  else set_world_bitflag (world_bitflag w * 2) w.

(** The record [registerComponent] stores for a component. *)
Definition granted (s : State) (id : nat) : Registration := {|
  generationId := Z.of_nat (length (world_entityMasks (world s))) - 1;
  bitflag := world_bitflag (world s);
  store := id;
  queries := interested (queryObjects s) id (world_queries (world s));
  notQueries := [];
  changedQueries := [];
|}.

(** The state after [registerComponent]. *)
Definition registered (id : nat) (s : State) : State :=
  set_world
    (next_cursor
       (set_world_componentMap (<[id := granted s id]> (world_componentMap (world s)))
                               (world s))) s.

(** The cursor and the generations after [k] registrations on a fresh world
    [w0]. *)
Definition allocated (w0 : World) (k : Z) (w : World) : Prop :=
  world_bitflag w = 2 ^ (k mod 31)
  /\ world_size w = world_size w0
  /\ world_entityMasks w
     = world_entityMasks w0
         ++ replicate (Z.to_nat (k / 31)) (replicate (world_size w0) 0).


(** ** The effect of a toggle, in closed form *)

Section Effects.
Context `{Collaborators}.

(** The store heap after the optional reset of one component for one
    entity. *)
Definition stores_after (reset : bool) (id e : nat) (s : State) : gmap nat StoreVal :=
  if reset
  then <[id := resetStoreFor (deref (componentStores s) id) e]> (componentStores s)
  else componentStores s.

(** The world right after the word of the entity was rewritten, which is
    the world the query engine is asked about. *)
Definition world_set (r : Registration) (e : nat) (w : World) : World :=
  write_mask (generationId r) e
    (JS.bitor (generation w (generationId r) ≫= (fun masks => masks !! e))
              (Some (bitflag r))) w.

Definition world_cleared (r : Registration) (e : nat) (w : World) : World :=
  write_mask (generationId r) e
    (JS.bitand (generation w (generationId r) ≫= (fun masks => masks !! e))
               (Some (JS.bitnot (Some (bitflag r))))) w.

(** The state an effective [addComponent] leaves. *)
Definition added (id e : nat) (reset : bool) (r : Registration)
    (attached : list nat) (s : State) : State :=
  let w1 := world_set r e (world s) in
  mkState
    (set_world_entityComponents
       (<[e := Set_add id attached]> (world_entityComponents w1)) w1)
    (synchronize_all w1 e (queries r) (queryObjects s))
    (stores_after reset id e s).

(** The state an effective [removeComponent] leaves. *)
Definition removed (id e : nat) (reset : bool) (r : Registration)
    (attached : list nat) (s : State) : State :=
  let w1 := world_cleared r e (world s) in
  mkState
    (set_world_entityComponents
       (<[e := Set_delete id attached]> (world_entityComponents w1)) w1)
    (synchronize_all w1 e (queries r) (queryObjects s))
    (stores_after reset id e s).

End Effects.

(** The state between the synchronisation pass and the update of the
    attached-component set. *)
Definition synced `{Collaborators} (w1 : World) (e : nat) (r : Registration)
    (s : State) : State :=
  mkState w1 (synchronize_all w1 e (queries r) (queryObjects s)) (componentStores s).

(** Whether a component is a section object of shape [{pos:{x,y}, hp}]
    whose three leaves are typed arrays. *)
Definition pos_hp_store (tx ty th : JS.ElementType) (xs ys hs : list Z) : StoreVal :=
  SObject [(KName "pos", SObject [(KName "x", STypedArray tx xs);
                                  (KName "y", STypedArray ty ys)]);
           (KName "hp", STypedArray th hs)].

(** Decides a closed proposition by evaluation. *)
Ltac by_evaluation :=
  apply (bool_decide_unpack _); vm_compute; reflexivity.

(** Solves the well-formedness of a concrete world by evaluation. *)
Ltac wf_by_evaluation := split; by_evaluation.

(** The membership invariant of the data model, for one world: for every
    registered component and every entity, [hasComponent] is true exactly
    when the word of the entity has the bit of the component. *)
Definition membership_holds (w : World) : Prop :=
  forall id r e,
    world_componentMap w !! id = Some r ->
    hasComponent w (Obj id) e = Returned true
    <-> Z.land (mask_word w (generationId r) e) (bitflag r) = bitflag r.

(** ** Worlds the operations can reach *)

(** The index of the generation the cursor points into. *)
Definition last_generation (w : World) : Z :=
  Z.of_nat (length (world_entityMasks w)) - 1.

(** A record was granted before the cursor got where it is. *)
Definition below_cursor (w : World) (r : Registration) : Prop :=
  generationId r < last_generation w
  \/ (generationId r = last_generation w /\ bitflag r < world_bitflag w).

(** No two components share a (generation, bit) pair. *)
Definition distinct_bits (w : World) : Prop :=
  forall i j ri rj,
    world_componentMap w !! i = Some ri ->
    world_componentMap w !! j = Some rj ->
    generationId ri = generationId rj -> bitflag ri = bitflag rj -> i = j.

(** No entity has a bit set at or above the cursor. *)
Definition unassigned_clear (w : World) : Prop :=
  forall e, mask_word w (last_generation w) e < world_bitflag w.

(** The attached-component sets say what the masks say. *)
Definition attached_mirror (w : World) : Prop :=
  forall e attached id,
    world_entityComponents w !! e = Some attached ->
    id ∈ attached <-> hasComponent w (Obj id) e = Returned true.

(** A coherent world: well-formed, with every record below the cursor, no
    shared bit, no bit set that was not granted yet, and attached sets that
    mirror the masks. *)
Record coherent (w : World) : Prop := {
  coh_wf : wf_world w;
  coh_below : map_Forall (fun _ r => below_cursor w r) (world_componentMap w);
  coh_distinct : distinct_bits w;
  coh_clear : unassigned_clear w;
  coh_mirror : attached_mirror w;
}.

(** ** Reading a component store *)

(** The typed array at the end of a path of field names. *)
Fixpoint leaf (store : StoreVal) (path : list string) : option (JS.ElementType * list Z) :=
  match path, store with
  | [], STypedArray t cells => Some (t, cells)
  | name :: rest, SObject fields => assoc (KName name) fields ≫= fun child => leaf child rest
  | _, _ => None
  end.

(** Two stores have the same leaves, with the same element types and
    lengths, and the same values for every entity but [e]. *)
Definition agrees (e : nat) (store store' : StoreVal) : Prop :=
  forall path t cells,
    leaf store path = Some (t, cells) ->
    exists cells',
      leaf store' path = Some (t, cells')
      /\ length cells' = length cells
      /\ forall i, i <> e -> cells' !! i = cells !! i.

(** What the callback of [recursivelySetComponentAttributes] does for one
    key of the data. *)
Definition set_attribute (eid : nat) (k : Key) (v : JsVal) : M StoreVal unit :=
  match v with
  | VNumber n =>
      componentSection <- get ;;
      target <- lift (get_prop componentSection k) ;;
      target' <- lift (assign_index target eid n) ;;
      modify (fun section => written_back section k target')
  | _ =>
      componentSection <- get ;;
      child <- lift (get_prop componentSection k) ;;
      fun section =>
        let '(r, child') := recursivelySetComponentAttributes eid v child in
        (r, written_back section k child')
  end.

(** Values the walk passes over when the section has no such key: the
    recursive call returns at once on them, or finds no key to write. *)
Definition skipped (v : JsVal) : bool :=
  match v with
  | VUndefined | VBoolean _ | VString _ | VObject [] => true
  | VNull | VNumber _ | VObject (_ :: _) => false
  end.

(** ** Resizing components *)

(** The storage layer's [resizeStore], which [resizeComponents] calls; it
    is imported, not defined in this file. *)
Class Storage := {
  resizeStore : StoreVal -> nat -> StoreVal;
}.

(** The module-level [components] array and the store objects that
    exist. *)
Record Library := mkLibrary {
  components : list nat;
  stores : gmap nat StoreVal;
}.

Section Resize.
Context `{Storage}.

(** [resizeComponents], lines 10-12. *)
Definition resizeComponents (size : nat) : M Library unit :=
  lib <- get ;;
  forEach (components lib) (fun component =>
    modify (fun lib =>
      mkLibrary (components lib)
        (<[component := resizeStore (deref (stores lib) component) size]> (stores lib)))).

End Resize.

(** The [components] array lists no store twice and only stores that
    exist. *)
Definition library_ok (lib : Library) : Prop :=
  NoDup (components lib)
  /\ Forall (fun id => is_Some (stores lib !! id)) (components lib).

(** ** Sequences of calls *)

(** What a caller can do to the membership of a world through this file,
    once the world exists. *)
Inductive Call :=
| Add (c : Component) (eid : option nat) (reset : bool)
| Remove (c : Component) (eid : option nat) (reset : bool)
| Update (c : Component) (eid : option nat) (data : JsVal)
| Fill (c : Component) (eid : option nat) (data : JsVal) (reset : bool).

Section Calls.
Context `{Collaborators}.

Definition call (k : Call) : M State unit :=
  match k with
  | Add c eid reset => addComponent c eid reset
  | Remove c eid reset => removeComponent c eid reset
  | Update c eid data => updateComponent c eid data
  | Fill c eid data reset => addAndPartiallyFillComponent c eid data reset
  end.

(** The state after a sequence of calls whose exceptions are caught. *)
Definition after_calls (ks : list Call) (s : State) : State :=
  foldl (fun s k => (call k s).2) s ks.

End Calls.

(** A stand-in for the storage layer, for the examples: a typed array is
    cut or filled with zeros. *)
Definition example_storage : Storage := {|
  resizeStore := fun store size =>
    match store with
    | STypedArray t cells => STypedArray t (take size cells ++ replicate (size - length cells) 0)
    | _ => store
    end;
|}.

(** A library with one listed store and the store of a tag component. *)
Definition example_library : Library :=
  mkLibrary [0%nat] (<[0%nat := STypedArray JS.Float32 [0; 7; 0; 0]]>
                       (<[1%nat := SObject []]> ∅)).

#[global] Instance valid_bitflag_dec b : Decision (valid_bitflag b).
Proof. unfold valid_bitflag. apply _. Defined.

(** * Facts *)

(** ** Bit operations on mask words *)

Section Bits.

Lemma ToInt32_testbit z n :
  0 <= n < 32 -> Z.testbit (JS.ToInt32 z) n = Z.testbit z n.
Proof.
  intros Hn. unfold JS.ToInt32. cbv zeta.
  assert (Hlow : Z.testbit (z mod 2 ^ 32) n = Z.testbit z n)
    by (apply Z.mod_pow2_bits_low; lia).
  destruct (2 ^ 31 <=? z mod 2 ^ 32); [| exact Hlow].
  rewrite <- Hlow, <- (Z.mod_pow2_bits_low (z mod 2 ^ 32 - 2 ^ 32) 32 n) by lia.
  replace (z mod 2 ^ 32 - 2 ^ 32) with (z mod 2 ^ 32 + (-1) * 2 ^ 32) by lia.
  rewrite Z_mod_plus_full, Z.mod_mod by lia. reflexivity.
Qed.

Lemma ToInt32_small b : 0 <= b < 2 ^ 31 -> JS.ToInt32 b = b.
Proof.
  intros Hb. unfold JS.ToInt32. cbv zeta.
  rewrite Z.mod_small by lia.
  destruct (Z.leb_spec (2 ^ 31) b); lia.
Qed.

Lemma testbit_word_high w n : 0 <= w < 2 ^ 32 -> 32 <= n -> Z.testbit w n = false.
Proof.
  intros Hw Hn. rewrite <- (Z.mod_small w (2 ^ 32)) by lia.
  apply Z.mod_pow2_bits_high. lia.
Qed.

Lemma testbit_flag_high b n : 0 <= b < 2 ^ 31 -> 31 <= n -> Z.testbit b n = false.
Proof.
  intros Hb Hn. rewrite <- (Z.mod_small b (2 ^ 31)) by lia.
  apply Z.mod_pow2_bits_high. lia.
Qed.

Lemma operand_testbit m n :
  0 <= n < 32 -> Z.testbit (JS.operand m) n = Z.testbit (default 0 m) n.
Proof.
  intros Hn. destruct m as [z|]; simpl; [now apply ToInt32_testbit | reflexivity].
Qed.

(** [mask & bitflag] is the mathematical conjunction with the word. *)
Lemma bitand_flag m b :
  0 <= b < 2 ^ 31 ->
  JS.bitand m (Some b) = Z.land (default 0 m) b.
Proof.
  intros Hb. unfold JS.bitand. simpl. rewrite (ToInt32_small b Hb).
  apply Z.bits_inj'. intros n Hn. rewrite !Z.land_spec.
  destruct (Z.lt_ge_cases n 31).
  - rewrite operand_testbit by lia. reflexivity.
  - rewrite (testbit_flag_high b n) by lia. now rewrite !andb_false_r.
Qed.

(** [mask |= bitflag] stores the word with the bit set. *)
Lemma bitor_stored m b :
  0 <= default 0 m < 2 ^ 32 -> 0 <= b < 2 ^ 31 ->
  JS.ToUint32 (JS.bitor m (Some b)) = Z.lor (default 0 m) b.
Proof.
  intros Hm Hb. unfold JS.ToUint32, JS.bitor. simpl. rewrite (ToInt32_small b Hb).
  apply Z.bits_inj'. intros n Hn.
  destruct (Z.lt_ge_cases n 32).
  - rewrite Z.mod_pow2_bits_low, !Z.lor_spec, operand_testbit by lia. reflexivity.
  - rewrite Z.mod_pow2_bits_high, Z.lor_spec by lia.
    rewrite testbit_word_high, (testbit_flag_high b n) by lia. reflexivity.
Qed.

(** [mask &= ~bitflag] stores the word with the bit cleared. *)
Lemma bitclear_stored m b :
  0 <= default 0 m < 2 ^ 32 -> 0 <= b < 2 ^ 31 ->
  JS.ToUint32 (JS.bitand m (Some (JS.bitnot (Some b)))) = Z.ldiff (default 0 m) b.
Proof.
  intros Hm Hb. unfold JS.ToUint32, JS.bitand, JS.bitnot. simpl.
  rewrite (ToInt32_small b Hb).
  apply Z.bits_inj'. intros n Hn.
  destruct (Z.lt_ge_cases n 32).
  - rewrite Z.mod_pow2_bits_low, Z.land_spec, Z.ldiff_spec by lia.
    rewrite ToInt32_testbit, operand_testbit, Z.lnot_spec by lia. reflexivity.
  - rewrite Z.mod_pow2_bits_high, Z.ldiff_spec by lia.
    rewrite testbit_word_high by lia. reflexivity.
Qed.

Lemma land_lor_flag w b : Z.land (Z.lor w b) b = b.
Proof.
  apply Z.bits_inj'. intros n _. rewrite Z.land_spec, Z.lor_spec.
  destruct (Z.testbit w n), (Z.testbit b n); reflexivity.
Qed.

Lemma land_ldiff_flag w b : Z.land (Z.ldiff w b) b = 0.
Proof.
  apply Z.bits_inj'. intros n _. rewrite Z.land_spec, Z.ldiff_spec, Z.bits_0.
  destruct (Z.testbit w n), (Z.testbit b n); reflexivity.
Qed.

Lemma ToUint32_range z : 0 <= JS.ToUint32 z < 2 ^ 32.
Proof. unfold JS.ToUint32. apply Z.mod_pos_bound. lia. Qed.

Lemma valid_bitflag_range b : valid_bitflag b -> 0 < b < 2 ^ 31.
Proof. now intros [Hb _]. Qed.

Lemma valid_bitflag_pow2 k : 0 <= k <= 30 -> valid_bitflag (2 ^ k).
Proof.
  intros Hk. split.
  - split; [apply Z.pow_pos_nonneg; lia |].
    apply Z.pow_lt_mono_r; lia.
  - now rewrite Z.log2_pow2 by lia.
Qed.

Lemma valid_bitflag_inv b : valid_bitflag b -> exists k, 0 <= k <= 30 /\ b = 2 ^ k.
Proof.
  intros [[Hpos Hlt] Hpow]. exists (Z.log2 b). split; [| exact Hpow].
  split; [apply Z.log2_nonneg |].
  assert (Z.log2 b < 31) by (apply Z.log2_lt_pow2; lia). lia.
Qed.

End Bits.

(** ** Registration *)

Section Registration.

Lemma incrementBitflag_run s :
  incrementBitflag s = (Returned tt, set_world (next_cursor (world s)) s).
Proof.
  unfold incrementBitflag, next_cursor, bind, modify_world, modify, get, ret. simpl.
  destruct (2 ^ 31 <=? world_bitflag (world s) * 2); reflexivity.
Qed.

Lemma registerComponent_run id s :
  registerComponent (Obj id) s = (Returned tt, registered id s).
Proof.
  unfold registerComponent, bind, get, modify_world, modify. simpl.
  rewrite incrementBitflag_run. reflexivity.
Qed.

Lemma forEach_app {S A} (xs ys : list A) (f : A -> M S unit) s :
  forEach (xs ++ ys) f s = (forEach xs f ;; forEach ys f)%js s.
Proof.
  revert s. induction xs as [|x xs IH]; intros s; simpl.
  - reflexivity.
  - unfold bind in *. destruct (f x s) as [[[]|err] s1]; [apply IH | reflexivity].
Qed.

Lemma registerComponents_run ids s :
  registerComponents (Obj <$> ids) s
  = (Returned tt, foldl (fun s id => registered id s) s ids).
Proof.
  unfold registerComponents. revert s.
  induction ids as [|id ids IH]; intros s; [reflexivity |].
  cbn [fmap list_fmap forEach foldl]. unfold bind.
  rewrite registerComponent_run. apply IH.
Qed.

Lemma allocated_fresh w0 : fresh w0 -> allocated w0 0 w0.
Proof.
  intros [Hb _]. repeat split; [exact Hb |]. simpl. now rewrite app_nil_r.
Qed.

Lemma allocated_step w0 k id s :
  fresh w0 -> 0 <= k -> allocated w0 k (world s) ->
  allocated w0 (k + 1) (world (registered id s))
  /\ generationId (granted s id) = k / 31
  /\ bitflag (granted s id) = 2 ^ (k mod 31).
Proof.
  intros [_ Hlen] Hk (Hb & Hsz & Hm).
  assert (Hmod : 0 <= k mod 31 < 31) by (apply Z.mod_pos_bound; lia).
  assert (Hdiv : 0 <= k / 31) by (apply Z.div_pos; lia).
  split; [| split].
  - unfold registered, next_cursor, allocated. simpl. rewrite Hb.
    replace (2 ^ (k mod 31) * 2) with (2 ^ (k mod 31 + 1))
      by (rewrite Z.pow_add_r by lia; lia).
    destruct (Z.leb_spec (2 ^ 31) (2 ^ (k mod 31 + 1))) as [Hge|Hlt]; simpl.
    + assert (k mod 31 = 30).
      { destruct (Z.lt_ge_cases (k mod 31 + 1) 31) as [Hl|]; [| lia].
        apply (Z.pow_lt_mono_r 2) in Hl; lia. }
      assert ((k + 1) mod 31 = 0 /\ (k + 1) / 31 = k / 31 + 1) as [-> ->]
        by (Z.div_mod_to_equations; lia).
      repeat split; [exact Hsz |].
      rewrite Hm, Hsz, Z2Nat.inj_add by lia.
      rewrite replicate_add, app_assoc. reflexivity.
    + assert (k mod 31 + 1 < 31).
      { destruct (Z.lt_ge_cases (k mod 31 + 1) 31) as [|Hl]; [lia |].
        apply (Z.pow_le_mono_r 2) in Hl; lia. }
      assert ((k + 1) mod 31 = k mod 31 + 1 /\ (k + 1) / 31 = k / 31) as [-> ->]
        by (Z.div_mod_to_equations; lia).
      repeat split; [exact Hsz | exact Hm].
  - simpl. rewrite Hm, length_app, length_replicate, Hlen. lia.
  - exact Hb.
Qed.

Lemma allocated_foldl w0 ids s k :
  fresh w0 -> 0 <= k -> allocated w0 k (world s) ->
  allocated w0 (k + Z.of_nat (length ids))
            (world (foldl (fun s id => registered id s) s ids)).
Proof.
  intros Hf. revert s k. induction ids as [|id ids IH]; intros s k Hk Ha.
  - simpl. now rewrite Z.add_0_r.
  - cbn [foldl length]. rewrite Nat2Z.inj_succ.
    replace (k + Z.succ (Z.of_nat (length ids)))
      with ((k + 1) + Z.of_nat (length ids)) by lia.
    apply IH; [lia |]. now apply (allocated_step w0 k id s Hf Hk Ha).
Qed.

End Registration.

(** ** Allocation order *)

(** C2: on a fresh world (cursor 1, one generation) the n-th component
    registered is granted generation floor((n-1)/31) and bit
    2^((n-1) mod 31), which is below 2^31; after the n-th grant the cursor
    is 2^(n mod 31) and floor(n/31) all-zero generations of the world's
    size have been appended.  In particular the 32nd registration gets bit 1
    of generation 1. *)
Theorem allocation_order (s : State) (pre : list nat) (id : nat) :
  fresh (world s) ->
  let n := Z.of_nat (S (length pre)) in
  let r := registerComponents (Obj <$> pre ++ [id]) s in
  r.1 = Returned tt
  /\ (exists rec,
        world_componentMap (world r.2) !! id = Some rec
        /\ generationId rec = (n - 1) / 31
        /\ bitflag rec = 2 ^ ((n - 1) mod 31)
        /\ bitflag rec < 2 ^ 31)
  /\ world_bitflag (world r.2) = 2 ^ (n mod 31)
  /\ world_entityMasks (world r.2)
     = world_entityMasks (world s)
         ++ replicate (Z.to_nat (n / 31)) (replicate (world_size (world s)) 0).
Proof.
  intros Hf n r. subst r. rewrite registerComponents_run, foldl_app. simpl.
  set (s1 := foldl (fun s id => registered id s) s pre).
  assert (Ha : allocated (world s) (Z.of_nat (length pre)) (world s1)).
  { apply (allocated_foldl (world s) pre s 0 Hf); [lia |].
    now apply allocated_fresh. }
  destruct (allocated_step (world s) _ id s1 Hf (Nat2Z.is_nonneg _) Ha)
    as ((Hb & _ & Hm) & Hg & Hbit).
  replace (n - 1) with (Z.of_nat (length pre)) by (subst n; lia).
  replace n with (Z.of_nat (length pre) + 1) by (subst n; lia).
  split; [reflexivity |]. split; [| split; assumption].
  exists (granted s1 id). split; [| split; [exact Hg | split; [exact Hbit |]]].
  - unfold registered, next_cursor. simpl.
    destruct (2 ^ 31 <=? world_bitflag (world s1) * 2); simpl; apply lookup_insert_eq.
  - rewrite Hbit. apply Z.pow_lt_mono_r; [lia | lia |].
    pose proof (Z.mod_pos_bound (Z.of_nat (length pre)) 31). lia.
Qed.

(** The 32nd registration on the example world. *)
Lemma allocation_order_witness :
  fresh (world Example.state0)
  /\ exists rec,
       world_componentMap
         (world (registerComponents (Obj <$> seq 0 31 ++ [31%nat]) Example.state0).2)
         !! 31%nat = Some rec
       /\ generationId rec = 1 /\ bitflag rec = 1.
Proof.
  assert (Hf : fresh (world Example.state0)) by (split; reflexivity).
  split; [exact Hf |].
  destruct (allocation_order Example.state0 (seq 0 31) 31%nat Hf)
    as (_ & (rec & Hrec & Hg & Hb & _) & _).
  exists rec. split; [exact Hrec |]. split; [exact Hg | exact Hb].
Defined.

(** ** Running the mutations *)

Section Runs.
Context `{Collaborators}.
#[local] Arguments registerComponent : simpl never.
#[local] Arguments registered : simpl never.

Lemma entityExists_true w e :
  e ∈ world_entitySparseSet w -> entityExists w e = true.
Proof. intros He. unfold entityExists, SparseSet.has. now apply bool_decide_eq_true_2. Qed.

Lemma entityExists_false w e :
  e ∉ world_entitySparseSet w -> entityExists w e = false.
Proof. intros He. unfold entityExists, SparseSet.has. now apply bool_decide_eq_false_2. Qed.

Lemma componentMap_has_Some w id r :
  world_componentMap w !! id = Some r -> componentMap_has w (Obj id) = true.
Proof.
  intros Hr. unfold componentMap_has. simpl. apply bool_decide_eq_true_2. now exists r.
Qed.

Lemma componentMap_has_None w id :
  world_componentMap w !! id = None -> componentMap_has w (Obj id) = false.
Proof.
  intros Hr. unfold componentMap_has. simpl. apply bool_decide_eq_false_2.
  rewrite Hr. now intros [? ?].
Qed.

(** The interested queries are synchronised one after the other, and the
    world stays as it is meanwhile. *)
Lemma forEach_synchronize e qs s :
  forEach qs (fun q =>
    on_query q (fun w qo =>
      let qo := set_toRemove (SparseSet.remove (toRemove qo) e) qo in
      let match_ := queryCheckEntity w qo e in
      let qo :=
        if match_
        then queryAddEntity (set_exited (SparseSet.remove (exited qo) e) qo) e
        else qo in
      if negb match_
      then queryRemoveEntity w (set_entered (SparseSet.remove (entered qo) e) qo) e
      else qo)) s
  = (Returned tt,
     set_queryObjects (synchronize_all (world s) e qs (queryObjects s)) s).
Proof.
  revert s. induction qs as [|q qs IH]; intros s.
  - destruct s; reflexivity.
  - cbn [forEach]. unfold bind, on_query at 1, modify. rewrite IH.
    destruct s as [w objs stores]. unfold set_queryObjects, synchronize_all. simpl.
    do 3 f_equal. apply alter_ext. intros qo _. unfold synchronize.
    destruct (queryCheckEntity _ _ _); reflexivity.
Qed.

Lemma hasComponent_unregistered w c e :
  componentMap_get w c = None -> hasComponent w c e = Returned false.
Proof. intros Hc. unfold hasComponent. now rewrite Hc. Qed.

Lemma hasComponent_registered w c e b :
  hasComponent w c e = Returned b -> b = true ->
  exists id r masks,
    c = Obj id /\ world_componentMap w !! id = Some r
    /\ generation w (generationId r) = Some masks.
Proof.
  unfold hasComponent. intros Hh ->.
  destruct c as [|id]; simpl in Hh; [discriminate |].
  destruct (world_componentMap w !! id) as [r|] eqn:Hr; [| discriminate].
  destruct (generation w (generationId r)) as [masks|] eqn:Hg; [| discriminate].
  now exists id, r, masks.
Qed.

Lemma addComponent_present c e reset s :
  e ∈ world_entitySparseSet (world s) ->
  hasComponent (world s) c e = Returned true ->
  addComponent c (Some e) reset s = (Returned tt, s).
Proof.
  intros He Hh.
  destruct (hasComponent_registered _ _ _ _ Hh eq_refl) as (id & r & masks & -> & Hr & _).
  unfold addComponent, bind, get, lift, ret. simpl.
  rewrite (entityExists_true _ _ He), (componentMap_has_Some _ _ _ Hr). simpl.
  now rewrite Hh.
Qed.

Lemma addComponent_absent id e reset r masks attached s :
  e ∈ world_entitySparseSet (world s) ->
  world_componentMap (world s) !! id = Some r ->
  generation (world s) (generationId r) = Some masks ->
  world_entityComponents (world s) !! e = Some attached ->
  hasComponent (world s) (Obj id) e = Returned false ->
  addComponent (Obj id) (Some e) reset s = (Returned tt, added id e reset r attached s).
Proof.
  intros He Hr Hg Ha Hh.
  unfold addComponent, bind, get, lift, ret. simpl.
  rewrite (entityExists_true _ _ He), (componentMap_has_Some _ _ _ Hr). simpl.
  rewrite Hh, Hr, Hg. unfold modify_world, modify at 1.
  rewrite forEach_synchronize. simpl. rewrite Ha.
  unfold added, stores_after, world_set. rewrite Hg. simpl.
  destruct reset; reflexivity.
Qed.

Lemma addComponent_unregistered id e reset s :
  e ∈ world_entitySparseSet (world s) ->
  world_componentMap (world s) !! id = None ->
  addComponent (Obj id) (Some e) reset s
  = addComponent (Obj id) (Some e) reset (registered id s).
Proof.
  intros He Hr.
  assert (He' : e ∈ world_entitySparseSet (world (registered id s))).
  { unfold registered, next_cursor. simpl.
    destruct (2 ^ 31 <=? _); exact He. }
  assert (Hr' : world_componentMap (world (registered id s)) !! id
                = Some (granted s id)).
  { unfold registered, next_cursor. simpl.
    destruct (2 ^ 31 <=? _); simpl; apply lookup_insert_eq. }
  unfold addComponent, bind, get, lift, ret. cbv beta iota.
  rewrite (entityExists_true _ _ He), (entityExists_true _ _ He').
  rewrite (componentMap_has_None _ _ Hr), (componentMap_has_Some _ _ _ Hr').
  cbv beta iota delta [negb]. rewrite registerComponent_run. reflexivity.
Qed.

Lemma removeComponent_absent c e reset s :
  e ∈ world_entitySparseSet (world s) ->
  hasComponent (world s) c e = Returned false ->
  removeComponent c (Some e) reset s = (Returned tt, s).
Proof.
  intros He Hh. unfold removeComponent, bind, get, lift, ret. simpl.
  now rewrite (entityExists_true _ _ He), Hh.
Qed.

Lemma removeComponent_present id e reset r attached s :
  e ∈ world_entitySparseSet (world s) ->
  world_componentMap (world s) !! id = Some r ->
  world_entityComponents (world s) !! e = Some attached ->
  hasComponent (world s) (Obj id) e = Returned true ->
  removeComponent (Obj id) (Some e) reset s
  = (Returned tt, removed id e reset r attached s).
Proof.
  intros He Hr Ha Hh.
  destruct (hasComponent_registered _ _ _ _ Hh eq_refl)
    as (id' & r' & masks & [= <-] & Hr' & Hg).
  rewrite Hr in Hr'. injection Hr' as <-.
  unfold removeComponent, bind, get, lift, ret. simpl.
  rewrite (entityExists_true _ _ He), Hh. simpl. rewrite Hr, Hg.
  unfold modify_world, modify at 1.
  rewrite forEach_synchronize. simpl. rewrite Ha.
  unfold removed, stores_after, world_cleared. rewrite Hg. simpl.
  destruct reset; reflexivity.
Qed.

End Runs.

(** ** Well-formedness is kept *)

Section WellFormed.
Context `{Collaborators}.

Lemma Set_add_NoDup x xs : NoDup xs -> NoDup (Set_add x xs).
Proof.
  intros Hxs. unfold Set_add. destruct (decide (x ∈ xs)) as [|Hx]; [exact Hxs |].
  apply NoDup_app. split; [exact Hxs |]. split; [| apply NoDup_singleton].
  intros y Hy Hy'. apply list_elem_of_singleton in Hy'. now subst.
Qed.

Lemma interested_NoDup objs id qs : NoDup (interested objs id qs).
Proof.
  unfold interested.
  assert (Hgen : forall acc, NoDup acc ->
            NoDup (foldl (fun acc q =>
                     match objs !! q with
                     | Some qo => if decide (id ∈ allComponents qo)
                                  then Set_add q acc else acc
                     | None => acc
                     end) acc qs)).
  { induction qs as [|q qs IH]; intros acc Hacc; simpl; [exact Hacc |].
    apply IH. destruct (objs !! q) as [qo|]; [| exact Hacc].
    destruct (decide (id ∈ allComponents qo)); [| exact Hacc].
    now apply Set_add_NoDup. }
  apply Hgen. constructor.
Qed.

Lemma next_cursor_valid w :
  valid_bitflag (world_bitflag w) -> valid_bitflag (world_bitflag (next_cursor w)).
Proof.
  intros Hv. destruct (valid_bitflag_inv _ Hv) as (k & Hk & Hb).
  unfold next_cursor. destruct (Z.leb_spec (2 ^ 31) (world_bitflag w * 2)); simpl.
  - apply (valid_bitflag_pow2 0). lia.
  - rewrite Hb in *. replace (2 ^ k * 2) with (2 ^ (k + 1)) in *
      by (rewrite Z.pow_add_r by lia; lia).
    apply valid_bitflag_pow2.
    destruct (Z.lt_ge_cases (k + 1) 31) as [|Hl]; [lia |].
    apply (Z.pow_le_mono_r 2) in Hl; lia.
Qed.

Lemma wf_registered id s : wf_world (world s) -> wf_world (world (registered id s)).
Proof.
  intros [Hc Hg Hm Hr He].
  assert (Hlen : (0 < length (world_entityMasks (world s)))%nat).
  { destruct (world_entityMasks (world s)); [congruence | simpl; lia]. }
  assert (Hnew : forall ms,
    map_Forall (fun _ r =>
        0 <= generationId r
             < Z.of_nat (length (world_entityMasks (world s) ++ ms))
        /\ valid_bitflag (bitflag r) /\ NoDup (queries r))
      (<[id := granted s id]> (world_componentMap (world s)))).
  { intros ms. apply map_Forall_insert_2.
    - simpl. rewrite length_app. split; [lia |]. split; [exact Hc |].
      apply interested_NoDup.
    - intros i r Hi. destruct (Hr i r Hi) as (Hi1 & Hi2 & Hi3).
      rewrite length_app. split; [lia |]. now split. }
  unfold registered, next_cursor. simpl.
  destruct (Z.leb_spec (2 ^ 31) (world_bitflag (world s) * 2)); split; simpl; try assumption.
  - apply (valid_bitflag_pow2 0). lia.
  - intros Hnil. apply app_eq_nil in Hnil. now destruct Hnil.
  - apply Forall_app. split; [exact Hm |]. constructor; [| constructor].
    split; [apply length_replicate |]. apply Forall_replicate. lia.
  - apply Hnew.
  - pose proof (next_cursor_valid (world s) Hc) as Hv. unfold next_cursor in Hv.
    destruct (Z.leb_spec (2 ^ 31) (world_bitflag (world s) * 2)); [lia | exact Hv].
  - specialize (Hnew []). now rewrite app_nil_r in Hnew.
Qed.

Lemma generation_Some w g masks :
  generation w g = Some masks ->
  0 <= g /\ world_entityMasks w !! Z.to_nat g = Some masks.
Proof.
  unfold generation. destruct (Z.ltb_spec g 0); [discriminate |]. now split.
Qed.

Lemma generation_write w g e v g' :
  0 <= g ->
  generation (write_mask g e v w) g'
  = if decide (g' = g)
    then (fun masks => <[e := JS.ToUint32 v]> masks) <$> generation w g
    else generation w g'.
Proof.
  intros Hg. unfold generation, write_mask. simpl.
  destruct (decide (g' = g)) as [->|Hne].
  - destruct (Z.ltb_spec g 0); [lia |]. apply list_lookup_alter_eq.
  - destruct (Z.ltb_spec g' 0); [reflexivity |].
    apply list_lookup_alter_ne. lia.
Qed.

Lemma mask_word_write_eq w g e v masks :
  generation w g = Some masks -> (e < length masks)%nat ->
  mask_word (write_mask g e v w) g e = JS.ToUint32 v.
Proof.
  intros Hg He. destruct (generation_Some _ _ _ Hg) as [Hpos _].
  unfold mask_word. rewrite generation_write by exact Hpos.
  rewrite decide_True by reflexivity. rewrite Hg. simpl.
  now rewrite list_lookup_insert_eq.
Qed.

Lemma mask_word_write_ne w g e v g' e' :
  0 <= g -> g' <> g \/ e' <> e ->
  mask_word (write_mask g e v w) g' e' = mask_word w g' e'.
Proof.
  intros Hpos Hne. unfold mask_word. rewrite generation_write by exact Hpos.
  destruct (decide (g' = g)) as [->|]; [| reflexivity].
  destruct Hne as [|Hne]; [congruence |].
  destruct (generation w g) as [masks|]; simpl; [| reflexivity].
  now rewrite list_lookup_insert_ne by congruence.
Qed.

Lemma wf_write_mask w g e v : wf_world w -> wf_world (write_mask g e v w).
Proof.
  intros [Hc Hg Hm Hr He]. unfold write_mask. split; simpl; try assumption.
  - intros Hnil. apply (f_equal length) in Hnil. rewrite length_alter in Hnil.
    destruct (world_entityMasks w); [congruence | discriminate].
  - apply Forall_alter; [exact Hm |]. intros masks _ [Hlen Hrange].
    split; [now rewrite length_insert |].
    apply Forall_insert; [exact Hrange | apply ToUint32_range].
  - now rewrite length_alter.
Qed.

Lemma wf_attach w e attached :
  wf_world w ->
  wf_world (set_world_entityComponents (<[e := attached]> (world_entityComponents w)) w).
Proof.
  intros [Hc Hg Hm Hr He]. split; simpl; try assumption.
  intros e' He'. destruct (He e' He') as [Hlt Hsome]. split; [exact Hlt |].
  destruct (decide (e = e')) as [->|Hne].
  - rewrite lookup_insert_eq. eauto.
  - now rewrite lookup_insert_ne.
Qed.

Lemma wf_added id e reset r attached s :
  wf_world (world s) -> wf_world (world (added id e reset r attached s)).
Proof.
  intros Hwf. unfold added, world_set. simpl.
  apply (wf_attach (write_mask _ _ _ _)). now apply wf_write_mask.
Qed.

Lemma wf_removed id e reset r attached s :
  wf_world (world s) -> wf_world (world (removed id e reset r attached s)).
Proof.
  intros Hwf. unfold removed, world_cleared. simpl.
  apply (wf_attach (write_mask _ _ _ _)). now apply wf_write_mask.
Qed.

(** What a record of a well-formed world points at. *)
Lemma wf_record w id r :
  wf_world w -> world_componentMap w !! id = Some r ->
  0 < bitflag r < 2 ^ 31
  /\ exists masks,
       generation w (generationId r) = Some masks
       /\ length masks = world_size w
       /\ Forall (fun m => 0 <= m < 2 ^ 32) masks.
Proof.
  intros [Hc Hg Hm Hr He] Hid. destruct (Hr id r Hid) as ((Hlo & Hhi) & Hv & _).
  split; [now apply valid_bitflag_range |].
  destruct (lookup_lt_is_Some_2 (world_entityMasks w) (Z.to_nat (generationId r)))
    as [masks Hmasks]; [lia |].
  exists masks. unfold generation. destruct (Z.ltb_spec (generationId r) 0); [lia |].
  split; [exact Hmasks |].
  rewrite Forall_lookup in Hm. exact (Hm _ _ Hmasks).
Qed.

Lemma mask_word_range w g e : wf_world w -> 0 <= mask_word w g e < 2 ^ 32.
Proof.
  intros [_ _ Hm _ _]. unfold mask_word, generation.
  destruct (g <? 0); simpl; [lia |].
  destruct (world_entityMasks w !! Z.to_nat g) as [masks|] eqn:Hg; simpl; [| lia].
  destruct (masks !! e) as [m|] eqn:He; simpl; [| lia].
  rewrite Forall_lookup in Hm. destruct (Hm _ _ Hg) as [_ Hrange].
  rewrite Forall_lookup in Hrange. exact (Hrange _ _ He).
Qed.

(** In a well-formed world [hasComponent] is the mathematical test of the
    bit in the unsigned word. *)
Lemma hasComponent_wf w id r e :
  wf_world w -> world_componentMap w !! id = Some r ->
  hasComponent w (Obj id) e
  = Returned (bool_decide
                (Z.land (mask_word w (generationId r) e) (bitflag r) = bitflag r)).
Proof.
  intros Hwf Hr. destruct (wf_record _ _ _ Hwf Hr) as (Hb & masks & Hg & _ & _).
  unfold hasComponent, mask_word. simpl. rewrite Hr, Hg. simpl.
  rewrite bitand_flag by lia. f_equal.
  destruct (Z.eqb_spec (Z.land (default 0 (masks !! e)) (bitflag r)) (bitflag r)).
  - now rewrite bool_decide_eq_true_2.
  - now rewrite bool_decide_eq_false_2.
Qed.

End WellFormed.

(** ** What an add and a remove do to the masks *)

Section Toggle.
Context `{Collaborators}.

Lemma lor_absorbed m b : Z.land m b = b -> Z.lor m b = m.
Proof.
  intros Hb. apply Z.bits_inj'. intros n _. rewrite Z.lor_spec.
  apply (f_equal (fun z => Z.testbit z n)) in Hb. rewrite Z.land_spec in Hb.
  destruct (Z.testbit m n), (Z.testbit b n); simpl in *; congruence.
Qed.

Lemma ldiff_absent m b : valid_bitflag b -> Z.land m b <> b -> Z.ldiff m b = m.
Proof.
  intros Hv Hb. destruct (valid_bitflag_inv _ Hv) as (k & Hk & ->).
  assert (Hbit : Z.testbit m k = false).
  { destruct (Z.testbit m k) eqn:Hmk; [| reflexivity]. exfalso. apply Hb.
    apply Z.bits_inj'. intros n Hn. rewrite Z.land_spec, Z.pow2_bits_eqb by lia.
    destruct (Z.eqb_spec k n) as [->|]; [now rewrite Hmk | apply andb_false_r]. }
  apply Z.bits_inj'. intros n Hn. rewrite Z.ldiff_spec, Z.pow2_bits_eqb by lia.
  destruct (Z.eqb_spec k n) as [->|]; simpl; [now rewrite Hbit | apply andb_true_r].
Qed.

Lemma mask_word_registered id s g e :
  mask_word (world (registered id s)) g e = mask_word (world s) g e.
Proof.
  unfold registered, next_cursor, mask_word, generation. simpl.
  destruct (2 ^ 31 <=? world_bitflag (world s) * 2); simpl; [| reflexivity].
  destruct (g <? 0); [reflexivity |].
  destruct (lt_eq_lt_dec (Z.to_nat g) (length (world_entityMasks (world s))))
    as [[Hlt|Heq]|Hgt].
  - now rewrite lookup_app_l.
  - rewrite list_lookup_middle by exact Heq.
    rewrite (lookup_ge_None_2 (world_entityMasks (world s))) by lia. simpl.
    destruct (replicate (world_size (world s)) 0 !! e) as [z|] eqn:Hz; [| reflexivity].
    apply lookup_replicate in Hz. simpl. now destruct Hz.
  - rewrite !lookup_ge_None_2; [reflexivity | lia |].
    rewrite length_app. simpl. lia.
Qed.

Lemma registered_record id s :
  world_componentMap (world (registered id s)) !! id = Some (granted s id).
Proof.
  unfold registered, next_cursor. simpl.
  destruct (2 ^ 31 <=? _); simpl; apply lookup_insert_eq.
Qed.

Lemma registered_entities id s :
  world_entitySparseSet (world (registered id s)) = world_entitySparseSet (world s).
Proof. unfold registered, next_cursor. simpl. now destruct (2 ^ 31 <=? _). Qed.

(** The word of an entity of the existence set, in a well-formed world. *)
Lemma wf_cell w id r e :
  wf_world w -> world_componentMap w !! id = Some r ->
  e ∈ world_entitySparseSet w ->
  exists masks attached,
    generation w (generationId r) = Some masks
    /\ (e < length masks)%nat
    /\ world_entityComponents w !! e = Some attached.
Proof.
  intros Hwf Hr He. destruct (wf_record _ _ _ Hwf Hr) as (_ & masks & Hg & Hlen & _).
  destruct (wf_entities _ Hwf e He) as [Hlt [attached Ha]].
  exists masks, attached. split; [exact Hg |]. split; [lia | exact Ha].
Qed.

(** [addComponent] on a registered component of a well-formed world. *)
Lemma addComponent_registered_spec id e reset r s :
  wf_world (world s) -> e ∈ world_entitySparseSet (world s) ->
  world_componentMap (world s) !! id = Some r ->
  exists s',
    addComponent (Obj id) (Some e) reset s = (Returned tt, s')
    /\ wf_world (world s')
    /\ world_componentMap (world s') = world_componentMap (world s)
    /\ world_entitySparseSet (world s') = world_entitySparseSet (world s)
    /\ mask_word (world s') (generationId r) e
       = Z.lor (mask_word (world s) (generationId r) e) (bitflag r)
    /\ (forall g' e', g' <> generationId r \/ e' <> e ->
          mask_word (world s') g' e' = mask_word (world s) g' e')
    /\ hasComponent (world s') (Obj id) e = Returned true.
Proof.
  intros Hwf He Hr.
  destruct (wf_record _ _ _ Hwf Hr) as (Hb & _).
  destruct (wf_cell _ _ _ _ Hwf Hr He) as (masks & attached & Hg & Hlt & Ha).
  pose proof (hasComponent_wf _ _ _ e Hwf Hr) as Hh.
  destruct (decide (Z.land (mask_word (world s) (generationId r) e) (bitflag r)
                    = bitflag r)) as [Hset|Hunset].
  - rewrite bool_decide_eq_true_2 in Hh by exact Hset.
    exists s. rewrite (addComponent_present _ _ _ _ He Hh).
    repeat (split; [reflexivity || assumption |]).
    split; [now rewrite lor_absorbed |]. split; [reflexivity | exact Hh].
  - rewrite bool_decide_eq_false_2 in Hh by exact Hunset.
    exists (added id e reset r attached s).
    rewrite (addComponent_absent _ _ _ _ _ _ _ He Hr Hg Ha Hh).
    assert (Hwf' : wf_world (world (added id e reset r attached s)))
      by now apply wf_added.
    assert (Hword : mask_word (world (added id e reset r attached s)) (generationId r) e
                    = Z.lor (mask_word (world s) (generationId r) e) (bitflag r)).
    { unfold added, world_set. simpl.
      change (mask_word (set_world_entityComponents ?m ?w)) with (mask_word w).
      rewrite (mask_word_write_eq _ _ _ _ masks Hg Hlt).
      apply bitor_stored; [| lia]. apply (mask_word_range _ _ _ Hwf). }
    split; [reflexivity |]. split; [exact Hwf' |].
    split; [reflexivity |]. split; [reflexivity |]. split; [exact Hword |]. split.
    + intros g' e' Hne. unfold added, world_set. simpl.
      change (mask_word (set_world_entityComponents ?m ?w)) with (mask_word w).
      apply mask_word_write_ne; [| exact Hne].
      now destruct (generation_Some _ _ _ Hg).
    + rewrite (hasComponent_wf _ id r e Hwf') by exact Hr.
      f_equal. apply bool_decide_eq_true_2. rewrite Hword. apply land_lor_flag.
Qed.

(** [removeComponent] on a registered component of a well-formed world. *)
Lemma removeComponent_registered_spec id e reset r s :
  wf_world (world s) -> e ∈ world_entitySparseSet (world s) ->
  world_componentMap (world s) !! id = Some r ->
  exists s',
    removeComponent (Obj id) (Some e) reset s = (Returned tt, s')
    /\ wf_world (world s')
    /\ world_componentMap (world s') = world_componentMap (world s)
    /\ world_entitySparseSet (world s') = world_entitySparseSet (world s)
    /\ mask_word (world s') (generationId r) e
       = Z.ldiff (mask_word (world s) (generationId r) e) (bitflag r)
    /\ (forall g' e', g' <> generationId r \/ e' <> e ->
          mask_word (world s') g' e' = mask_word (world s) g' e')
    /\ hasComponent (world s') (Obj id) e = Returned false.
Proof.
  intros Hwf He Hr.
  destruct (wf_record _ _ _ Hwf Hr) as (Hb & _).
  destruct (wf_cell _ _ _ _ Hwf Hr He) as (masks & attached & Hg & Hlt & Ha).
  pose proof (hasComponent_wf _ _ _ e Hwf Hr) as Hh.
  assert (Hv : valid_bitflag (bitflag r)).
  { destruct Hwf as [_ _ _ Hreg _]. now destruct (Hreg id r Hr) as (_ & ? & _). }
  destruct (decide (Z.land (mask_word (world s) (generationId r) e) (bitflag r)
                    = bitflag r)) as [Hset|Hunset].
  - rewrite bool_decide_eq_true_2 in Hh by exact Hset.
    exists (removed id e reset r attached s).
    rewrite (removeComponent_present _ _ _ _ _ _ He Hr Ha Hh).
    assert (Hwf' : wf_world (world (removed id e reset r attached s)))
      by now apply wf_removed.
    assert (Hword : mask_word (world (removed id e reset r attached s)) (generationId r) e
                    = Z.ldiff (mask_word (world s) (generationId r) e) (bitflag r)).
    { unfold removed, world_cleared. simpl.
      change (mask_word (set_world_entityComponents ?m ?w)) with (mask_word w).
      rewrite (mask_word_write_eq _ _ _ _ masks Hg Hlt).
      apply bitclear_stored; [| lia]. apply (mask_word_range _ _ _ Hwf). }
    split; [reflexivity |]. split; [exact Hwf' |].
    split; [reflexivity |]. split; [reflexivity |]. split; [exact Hword |]. split.
    + intros g' e' Hne. unfold removed, world_cleared. simpl.
      change (mask_word (set_world_entityComponents ?m ?w)) with (mask_word w).
      apply mask_word_write_ne; [| exact Hne].
      now destruct (generation_Some _ _ _ Hg).
    + rewrite (hasComponent_wf _ id r e Hwf') by exact Hr.
      f_equal. apply bool_decide_eq_false_2. rewrite Hword, land_ldiff_flag. lia.
  - rewrite bool_decide_eq_false_2 in Hh by exact Hunset.
    exists s. rewrite (removeComponent_absent _ _ _ _ He Hh).
    repeat (split; [reflexivity || assumption |]).
    split; [now rewrite ldiff_absent |]. split; [reflexivity | exact Hh].
Qed.

(** [addComponent] on any component object: the record is the one the
    world had, or the one the lazy registration grants. *)
Lemma addComponent_spec id e reset s :
  wf_world (world s) -> e ∈ world_entitySparseSet (world s) ->
  exists s' r,
    addComponent (Obj id) (Some e) reset s = (Returned tt, s')
    /\ wf_world (world s')
    /\ world_componentMap (world s') !! id = Some r
    /\ r = default (granted s id) (world_componentMap (world s) !! id)
    /\ world_entitySparseSet (world s') = world_entitySparseSet (world s)
    /\ mask_word (world s') (generationId r) e
       = Z.lor (mask_word (world s) (generationId r) e) (bitflag r)
    /\ (forall g' e', g' <> generationId r \/ e' <> e ->
          mask_word (world s') g' e' = mask_word (world s) g' e')
    /\ hasComponent (world s') (Obj id) e = Returned true.
Proof.
  intros Hwf He.
  destruct (world_componentMap (world s) !! id) as [r|] eqn:Hr.
  - destruct (addComponent_registered_spec id e reset r s Hwf He Hr)
      as (s' & Hrun & Hwf' & Hmap & Hset & Hword & Hrest & Hhas).
    exists s', r. rewrite Hmap.
    split; [exact Hrun |]. split; [exact Hwf' |]. split; [exact Hr |].
    split; [reflexivity |]. split; [exact Hset |]. split; [exact Hword |].
    split; [exact Hrest | exact Hhas].
  - rewrite (addComponent_unregistered _ _ _ _ He Hr).
    pose proof (registered_record id s) as Hr1.
    pose proof (registered_entities id s) as He1.
    destruct (addComponent_registered_spec id e reset (granted s id) (registered id s))
      as (s' & Hrun & Hwf' & Hmap & Hset & Hword & Hrest & Hhas);
      [now apply wf_registered | now rewrite He1 | exact Hr1 |].
    exists s', (granted s id). rewrite Hmap, Hset, He1.
    rewrite mask_word_registered in Hword.
    split; [exact Hrun |]. split; [exact Hwf' |]. split; [exact Hr1 |].
    split; [reflexivity |]. split; [reflexivity |]. split; [exact Hword |].
    split; [| exact Hhas].
    intros g' e' Hne. rewrite (Hrest g' e' Hne). apply mask_word_registered.
Qed.

Lemma membership_of_wf w : wf_world w -> membership_holds w.
Proof.
  intros Hwf id r e Hr. rewrite (hasComponent_wf _ _ _ e Hwf Hr). split.
  - intros [= Hb]. now apply bool_decide_eq_true_1 in Hb.
  - intros Hb. f_equal. now apply bool_decide_eq_true_2.
Qed.

(** Whichever way a call ends, it leaves a well-formed world. *)
Lemma addComponent_wf c eid reset s :
  wf_world (world s) -> wf_world (world (addComponent c eid reset s).2).
Proof.
  intros Hwf. destruct eid as [e|]; [| exact Hwf].
  destruct (decide (e ∈ world_entitySparseSet (world s))) as [He|He].
  - destruct c as [|id].
    + unfold addComponent, bind, get. simpl.
      now rewrite (entityExists_true _ _ He).
    + destruct (addComponent_spec id e reset s Hwf He) as (s' & r & -> & Hwf' & _).
      exact Hwf'.
  - unfold addComponent, bind, get. simpl.
    now rewrite (entityExists_false _ _ He).
Qed.

Lemma removeComponent_wf c eid reset s :
  wf_world (world s) -> wf_world (world (removeComponent c eid reset s).2).
Proof.
  intros Hwf. destruct eid as [e|]; [| exact Hwf].
  destruct (decide (e ∈ world_entitySparseSet (world s))) as [He|He].
  - destruct (componentMap_get (world s) c) as [r|] eqn:Hr.
    + destruct c as [|id]; [discriminate |].
      destruct (removeComponent_registered_spec id e reset r s Hwf He Hr)
        as (s' & -> & Hwf' & _).
      exact Hwf'.
    + now rewrite (removeComponent_absent c e reset s He
                     (hasComponent_unregistered _ _ _ Hr)).
  - unfold removeComponent, bind, get. simpl.
    now rewrite (entityExists_false _ _ He).
Qed.

End Toggle.

(** ** Every path through the mutations *)

Section Paths.
Context `{Collaborators}.
#[local] Arguments registerComponent : simpl never.
#[local] Arguments registered : simpl never.

Lemma addComponent_registered_paths id e reset r s :
  e ∈ world_entitySparseSet (world s) ->
  world_componentMap (world s) !! id = Some r ->
  addComponent (Obj id) (Some e) reset s
  = match hasComponent (world s) (Obj id) e with
    | Thrown err => (Thrown err, s)
    | Returned true => (Returned tt, s)
    | Returned false =>
        match generation (world s) (generationId r) with
        | None => (Thrown TypeError, s)
        | Some _ =>
            match world_entityComponents (world s) !! e with
            | None => (Thrown TypeError, synced (world_set r e (world s)) e r s)
            | Some attached => (Returned tt, added id e reset r attached s)
            end
        end
    end.
Proof.
  intros He Hr.
  unfold addComponent, bind, get, lift, ret. simpl.
  rewrite (entityExists_true _ _ He), (componentMap_has_Some _ _ _ Hr). simpl.
  destruct (hasComponent (world s) (Obj id) e) as [[|]|err]; [reflexivity | | reflexivity].
  rewrite Hr. destruct (generation (world s) (generationId r)) as [masks|] eqn:Hg;
    [| reflexivity].
  unfold modify_world, modify at 1. rewrite forEach_synchronize. simpl.
  unfold added, synced, stores_after, world_set. rewrite Hg. simpl.
  destruct (world_entityComponents (world s) !! e); [| reflexivity].
  destruct reset; reflexivity.
Qed.

Lemma removeComponent_paths c e reset s :
  e ∈ world_entitySparseSet (world s) ->
  removeComponent c (Some e) reset s
  = match hasComponent (world s) c e with
    | Thrown err => (Thrown err, s)
    | Returned false => (Returned tt, s)
    | Returned true =>
        match c, componentMap_get (world s) c with
        | Obj id, Some r =>
            match generation (world s) (generationId r) with
            | None => (Thrown TypeError, s)
            | Some _ =>
                match world_entityComponents (world s) !! e with
                | None => (Thrown TypeError, synced (world_cleared r e (world s)) e r s)
                | Some attached => (Returned tt, removed id e reset r attached s)
                end
            end
        | _, _ => (Thrown TypeError, s)
        end
    end.
Proof.
  intros He.
  unfold removeComponent, bind, get, lift, ret. simpl.
  rewrite (entityExists_true _ _ He). simpl.
  destruct (hasComponent (world s) c e) as [[|]|err]; [| reflexivity | reflexivity].
  simpl. destruct c as [|id]; [reflexivity |]. simpl.
  destruct (world_componentMap (world s) !! id) as [r|]; [| reflexivity].
  destruct (generation (world s) (generationId r)) as [masks|] eqn:Hg; [| reflexivity].
  unfold modify_world, modify at 1. rewrite forEach_synchronize. simpl.
  unfold removed, synced, stores_after, world_cleared. rewrite Hg. simpl.
  destruct (world_entityComponents (world s) !! e); [| reflexivity].
  destruct reset; reflexivity.
Qed.

Lemma addComponent_Nullish e reset s :
  e ∈ world_entitySparseSet (world s) ->
  addComponent Nullish (Some e) reset s = (Thrown NullComponent, s).
Proof.
  intros He. unfold addComponent, bind, get, lift, ret. simpl.
  now rewrite (entityExists_true _ _ He).
Qed.

Lemma guard_not_found c e reset data s :
  e ∉ world_entitySparseSet (world s) ->
  addComponent c (Some e) reset s = (Thrown EntityNotFound, s)
  /\ removeComponent c (Some e) reset s = (Thrown EntityNotFound, s)
  /\ updateComponent c (Some e) data s = (Thrown EntityNotFound, s).
Proof.
  intros He.
  unfold addComponent, removeComponent, updateComponent, bind, get. simpl.
  rewrite (entityExists_false _ _ He). repeat split.
Qed.

(** Past the guard, [addComponent] can only fail on a null component or
    inside the language. *)
Lemma addComponent_past_guard c e reset s err s' :
  e ∈ world_entitySparseSet (world s) ->
  addComponent c (Some e) reset s = (Thrown err, s') ->
  err = NullComponent \/ err = TypeError.
Proof.
  intros He Hrun. destruct c as [|id].
  - rewrite (addComponent_Nullish _ _ _ He) in Hrun. left. congruence.
  - right. revert Hrun.
    assert (Hreg : forall s0 r,
      e ∈ world_entitySparseSet (world s0) ->
      world_componentMap (world s0) !! id = Some r ->
      addComponent (Obj id) (Some e) reset s0 = (Thrown err, s') -> err = TypeError).
    { intros s0 r He0 Hr0. rewrite (addComponent_registered_paths _ _ _ _ _ He0 Hr0).
      unfold hasComponent. simpl. rewrite Hr0.
      destruct (generation (world s0) (generationId r)); [| congruence].
      destruct (_ =? _); [congruence |].
      destruct (world_entityComponents (world s0) !! e); congruence. }
    destruct (world_componentMap (world s) !! id) as [r|] eqn:Hr.
    + apply (Hreg s r He Hr).
    + rewrite (addComponent_unregistered _ _ _ _ He Hr).
      apply (Hreg (registered id s) (granted s id)); [| apply registered_record].
      now rewrite registered_entities.
Qed.

(** Without a reset the store heap is never written by an add or a
    remove, whichever way the call ends. *)
Lemma addComponent_keeps_stores c eid s :
  componentStores (addComponent c eid false s).2 = componentStores s.
Proof.
  destruct eid as [e|]; [| reflexivity].
  destruct (decide (e ∈ world_entitySparseSet (world s))) as [He|He];
    [| now rewrite (proj1 (guard_not_found c e false VUndefined s He))].
  destruct c as [|id]; [now rewrite (addComponent_Nullish _ _ _ He) |].
  assert (Hreg : forall s0 r,
    e ∈ world_entitySparseSet (world s0) ->
    world_componentMap (world s0) !! id = Some r ->
    componentStores (addComponent (Obj id) (Some e) false s0).2 = componentStores s0).
  { intros s0 r He0 Hr0. rewrite (addComponent_registered_paths _ _ _ _ _ He0 Hr0).
    destruct (hasComponent (world s0) (Obj id) e) as [[|]|]; try reflexivity.
    destruct (generation (world s0) (generationId r)); [| reflexivity].
    destruct (world_entityComponents (world s0) !! e); reflexivity. }
  destruct (world_componentMap (world s) !! id) as [r|] eqn:Hr.
  - apply (Hreg s r He Hr).
  - rewrite (addComponent_unregistered _ _ _ _ He Hr).
    rewrite (Hreg (registered id s) (granted s id)); [reflexivity | | apply registered_record].
    now rewrite registered_entities.
Qed.

Lemma removeComponent_keeps_stores c eid s :
  componentStores (removeComponent c eid false s).2 = componentStores s.
Proof.
  destruct eid as [e|]; [| reflexivity].
  destruct (decide (e ∈ world_entitySparseSet (world s))) as [He|He];
    [| now rewrite (proj1 (proj2 (guard_not_found c e false VUndefined s He)))].
  rewrite (removeComponent_paths _ _ _ _ He).
  destruct (hasComponent (world s) c e) as [[|]|]; try reflexivity.
  destruct c as [|id]; [reflexivity |]. simpl.
  destruct (world_componentMap (world s) !! id) as [r|]; [| reflexivity].
  destruct (generation (world s) (generationId r)); [| reflexivity].
  destruct (world_entityComponents (world s) !! e); reflexivity.
Qed.

(** Each interested query is synchronised once; the others are left. *)
Lemma synchronize_all_lookup w e qs objs q :
  NoDup qs ->
  synchronize_all w e qs objs !! q
  = if decide (q ∈ qs) then synchronize w e <$> objs !! q else objs !! q.
Proof.
  unfold synchronize_all. intros Hnd. revert objs.
  induction Hnd as [|q0 qs Hq0 Hnd IH]; intros objs; cbn [foldl].
  - destruct (decide (q ∈ [])) as [Hin|]; [| reflexivity].
    now apply not_elem_of_nil in Hin.
  - rewrite IH. destruct (decide (q = q0)) as [->|Hne].
    + destruct (decide (q0 ∈ qs)) as [|_]; [contradiction |].
      destruct (decide (q0 ∈ q0 :: qs)) as [_|Hout]; [apply lookup_alter_eq |].
      exfalso. apply Hout, list_elem_of_here.
    + rewrite lookup_alter_ne by congruence.
      destruct (decide (q ∈ qs)) as [Hin|Hout];
        destruct (decide (q ∈ q0 :: qs)) as [Hin'|Hout']; try reflexivity.
      * exfalso. apply Hout'. now apply list_elem_of_further.
      * exfalso. apply elem_of_cons in Hin'. destruct Hin'; congruence.
Qed.

(** The world the query engine is shown, field by field, when the word of
    the entity is in range. *)
Lemma list_alter_lookup {A} (f : A -> A) (l : list A) i x :
  l !! i = Some x -> alter f i l = <[i := f x]> l.
Proof.
  intros Hx. apply list_eq. intros j. destruct (decide (i = j)) as [<-|Hne].
  - rewrite list_lookup_alter_eq, Hx, list_lookup_insert_eq; [reflexivity |].
    now apply lookup_lt_Some in Hx.
  - now rewrite list_lookup_alter_ne, list_lookup_insert_ne.
Qed.

Lemma wf_word w id r masks m e :
  wf_world w -> world_componentMap w !! id = Some r ->
  world_entityMasks w !! Z.to_nat (generationId r) = Some masks ->
  masks !! e = Some m ->
  generation w (generationId r) = Some masks
  /\ mask_word w (generationId r) e = m
  /\ 0 <= m < 2 ^ 32 /\ 0 < bitflag r < 2 ^ 31.
Proof.
  intros Hwf Hr Hg Hm.
  destruct (wf_registry _ Hwf id r Hr) as ([Hg0 _] & Hb & _).
  assert (Hgen : generation w (generationId r) = Some masks).
  { unfold generation. destruct (Z.ltb_spec (generationId r) 0); [lia | exact Hg]. }
  assert (Hword : mask_word w (generationId r) e = m).
  { unfold mask_word. rewrite Hgen. simpl. now rewrite Hm. }
  split; [exact Hgen |]. split; [exact Hword |].
  split; [rewrite <- Hword; now apply mask_word_range | now apply valid_bitflag_range].
Qed.

Lemma world_set_fields w id r masks m e :
  wf_world w -> world_componentMap w !! id = Some r ->
  world_entityMasks w !! Z.to_nat (generationId r) = Some masks ->
  masks !! e = Some m ->
  world_set r e w
  = mkWorld (world_bitflag w) (world_size w)
      (<[Z.to_nat (generationId r) := <[e := Z.lor m (bitflag r)]> masks]>
         (world_entityMasks w))
      (world_componentMap w) (world_queries w) (world_entityComponents w)
      (world_entitySparseSet w).
Proof.
  intros Hwf Hr Hg Hm.
  destruct (wf_word _ _ _ _ _ _ Hwf Hr Hg Hm) as (Hgen & _ & Hrange & Hb).
  unfold world_set, write_mask, set_world_entityMasks. rewrite Hgen. simpl.
  rewrite (list_alter_lookup _ _ _ _ Hg), Hm.
  rewrite (bitor_stored (Some m) (bitflag r)) by (simpl; lia). reflexivity.
Qed.

Lemma world_cleared_fields w id r masks m e :
  wf_world w -> world_componentMap w !! id = Some r ->
  world_entityMasks w !! Z.to_nat (generationId r) = Some masks ->
  masks !! e = Some m ->
  world_cleared r e w
  = mkWorld (world_bitflag w) (world_size w)
      (<[Z.to_nat (generationId r) := <[e := Z.ldiff m (bitflag r)]> masks]>
         (world_entityMasks w))
      (world_componentMap w) (world_queries w) (world_entityComponents w)
      (world_entitySparseSet w).
Proof.
  intros Hwf Hr Hg Hm.
  destruct (wf_word _ _ _ _ _ _ Hwf Hr Hg Hm) as (Hgen & _ & Hrange & Hb).
  unfold world_cleared, write_mask, set_world_entityMasks. rewrite Hgen. simpl.
  rewrite (list_alter_lookup _ _ _ _ Hg), Hm.
  rewrite (bitclear_stored (Some m) (bitflag r)) by (simpl; lia). reflexivity.
Qed.

(** The query heap after an add that sets the bit, and after a remove that
    clears it. *)
Lemma addComponent_queries id e reset r masks m s :
  wf_world (world s) -> e ∈ world_entitySparseSet (world s) ->
  world_componentMap (world s) !! id = Some r ->
  world_entityMasks (world s) !! Z.to_nat (generationId r) = Some masks ->
  masks !! e = Some m ->
  Z.land m (bitflag r) <> bitflag r ->
  queryObjects (addComponent (Obj id) (Some e) reset s).2
  = synchronize_all (world_set r e (world s)) e (queries r) (queryObjects s).
Proof.
  intros Hwf He Hr Hg Hm Hbit.
  destruct (wf_word _ _ _ _ _ _ Hwf Hr Hg Hm) as (Hgen & Hword & _).
  destruct (wf_entities _ Hwf e He) as [_ [attached Ha]].
  rewrite (addComponent_registered_paths _ _ _ _ _ He Hr).
  rewrite (hasComponent_wf _ _ _ e Hwf Hr), Hword, bool_decide_eq_false_2 by exact Hbit.
  now rewrite Hgen, Ha.
Qed.

Lemma removeComponent_queries id e reset r masks m s :
  wf_world (world s) -> e ∈ world_entitySparseSet (world s) ->
  world_componentMap (world s) !! id = Some r ->
  world_entityMasks (world s) !! Z.to_nat (generationId r) = Some masks ->
  masks !! e = Some m ->
  Z.land m (bitflag r) = bitflag r ->
  queryObjects (removeComponent (Obj id) (Some e) reset s).2
  = synchronize_all (world_cleared r e (world s)) e (queries r) (queryObjects s).
Proof.
  intros Hwf He Hr Hg Hm Hbit.
  destruct (wf_word _ _ _ _ _ _ Hwf Hr Hg Hm) as (Hgen & Hword & _).
  destruct (wf_entities _ Hwf e He) as [_ [attached Ha]].
  rewrite (removeComponent_paths _ _ _ _ He).
  rewrite (hasComponent_wf _ _ _ e Hwf Hr), Hword, bool_decide_eq_true_2 by exact Hbit.
  simpl. now rewrite Hr, Hgen, Ha.
Qed.

End Paths.

(** ** Updates *)

Section Updates.
Context `{Collaborators}.

Lemma updateComponent_absent c e data s :
  e ∈ world_entitySparseSet (world s) ->
  hasComponent (world s) c e = Returned false ->
  updateComponent c (Some e) data s = (Returned tt, s).
Proof.
  intros He Hh. unfold updateComponent, bind, get, lift, ret. simpl.
  now rewrite (entityExists_true _ _ He), Hh.
Qed.

Lemma updateComponent_present id e data s :
  e ∈ world_entitySparseSet (world s) ->
  hasComponent (world s) (Obj id) e = Returned true ->
  updateComponent (Obj id) (Some e) data s
  = ((recursivelySetComponentAttributes e data (deref (componentStores s) id)).1,
     set_componentStores
       (<[id := (recursivelySetComponentAttributes e data
                   (deref (componentStores s) id)).2]> (componentStores s)) s).
Proof.
  intros He Hh. unfold updateComponent, bind, get, lift, ret. simpl.
  rewrite (entityExists_true _ _ He), Hh. simpl.
  now destruct (recursivelySetComponentAttributes e data _).
Qed.

(** The walk over the data of the nested-assignment property, on a store
    of that shape. *)
Lemma assign_pos_hp e tx ty th xs ys hs a b c :
  recursivelySetComponentAttributes e
    (VObject [(KName "pos", VObject [(KName "x", VNumber a); (KName "y", VNumber b)]);
              (KName "hp", VNumber c)])
    (pos_hp_store tx ty th xs ys hs)
  = (Returned tt,
     pos_hp_store tx ty th (<[e := JS.stored tx a]> xs) (<[e := JS.stored ty b]> ys)
                  (<[e := JS.stored th c]> hs)).
Proof. reflexivity. Qed.

(** Every element type holds a small non-negative integer as it is. *)
Lemma stored_small t n : 0 <= n <= 127 -> JS.stored t n = n.
Proof.
  intros Hn.
  assert (Hlog : Z.log2 (Z.abs n) <= 6).
  { rewrite Z.abs_eq by lia. change 6 with (Z.log2 127). apply Z.log2_le_mono. lia. }
  destruct t;
    unfold JS.stored, JS.round_significand, JS.wrap_signed, JS.wrap_unsigned; cbv zeta;
    try reflexivity; try lia; try (rewrite Z.mod_small by lia; try reflexivity).
  all: match goal with |- context [?a <=? ?b] => destruct (Z.leb_spec a b) end; lia.
Qed.

End Updates.

(** * The claims *)

Section Claims.
Context {ext : Collaborators}.

(** C1: in a well-formed world the membership invariant holds: for a
    registered component with record (g, b) and any entity, [hasComponent]
    returns true exactly when the word [entityMasks[g][e]] has the bit [b];
    and it holds again in the world any call of [addComponent] or
    [removeComponent] leaves.  On an existing entity [addComponent] returns
    with that word or-ed with [b], every other word as it was, and
    [hasComponent] true; [removeComponent] on a registered component
    returns with [b] cleared from that word, every other word as it was,
    and [hasComponent] false. *)
Theorem membership_invariant (s : State) (c : Component) (eid : option nat)
    (reset : bool) :
  wf_world (world s) ->
  membership_holds (world s)
  /\ membership_holds (world (addComponent c eid reset s).2)
  /\ membership_holds (world (removeComponent c eid reset s).2)
  /\ (forall id e,
        c = Obj id -> eid = Some e -> e ∈ world_entitySparseSet (world s) ->
        exists s' r,
          addComponent c eid reset s = (Returned tt, s')
          /\ world_componentMap (world s') !! id = Some r
          /\ r = default (granted s id) (world_componentMap (world s) !! id)
          /\ mask_word (world s') (generationId r) e
             = Z.lor (mask_word (world s) (generationId r) e) (bitflag r)
          /\ (forall g' e', g' <> generationId r \/ e' <> e ->
                mask_word (world s') g' e' = mask_word (world s) g' e')
          /\ hasComponent (world s') c e = Returned true)
  /\ (forall id e r,
        c = Obj id -> eid = Some e -> e ∈ world_entitySparseSet (world s) ->
        world_componentMap (world s) !! id = Some r ->
        exists s',
          removeComponent c eid reset s = (Returned tt, s')
          /\ world_componentMap (world s') !! id = Some r
          /\ mask_word (world s') (generationId r) e
             = Z.ldiff (mask_word (world s) (generationId r) e) (bitflag r)
          /\ (forall g' e', g' <> generationId r \/ e' <> e ->
                mask_word (world s') g' e' = mask_word (world s) g' e')
          /\ hasComponent (world s') c e = Returned false).
Proof.
  intros Hwf.
  split; [now apply membership_of_wf |].
  split; [now apply membership_of_wf, addComponent_wf |].
  split; [now apply membership_of_wf, removeComponent_wf |]. split.
  - intros id e -> -> He.
    destruct (addComponent_spec id e reset s Hwf He)
      as (s' & r & Hrun & _ & Hr & Hdef & _ & Hword & Hrest & Hhas).
    exists s', r. now repeat (split; [assumption |]).
  - intros id e r -> -> He Hr.
    destruct (removeComponent_registered_spec id e reset r s Hwf He Hr)
      as (s' & Hrun & _ & Hmap & _ & Hword & Hrest & Hhas).
    exists s'. rewrite Hmap. now repeat (split; [assumption |]).
Qed.

(** C3, as the code has it: [removeComponent] opens with the two existence
    checks of [addComponent] and fails as it does, but it never registers:
    on an existing entity and a component the world has no record for it
    returns normally and leaves the whole state, registry and cursor
    included, as it was. *)
Theorem removeComponent_never_registers (s : State) (c : Component) (e : nat)
    (reset reset' : bool) :
  componentMap_get (world s) c = None ->
  removeComponent c None reset s = addComponent c None reset' s
  /\ (e ∉ world_entitySparseSet (world s) ->
      removeComponent c (Some e) reset s = addComponent c (Some e) reset' s)
  /\ (e ∈ world_entitySparseSet (world s) ->
      removeComponent c (Some e) reset s = (Returned tt, s)).
Proof.
  intros Hc. split; [reflexivity |]. split.
  - intros He.
    destruct (guard_not_found c e reset VUndefined s He) as (_ & -> & _).
    now destruct (guard_not_found c e reset' VUndefined s He) as (-> & _).
  - intros He. apply removeComponent_absent; [exact He |].
    now apply hasComponent_unregistered.
Qed.

(** C4: in a well-formed world, when [addComponent] sets the bit of a
    component on an existing entity (after registering the component, if the
    world had no record for it), and when [removeComponent] clears it, every
    query of the component's interested set is replaced as follows, and every
    other query is left as it was.  The entity is taken out of the query's
    [toRemove]; [queryCheckEntity] is asked about the query so changed, in
    the world whose word has just been rewritten; on a match the entity is
    also taken out of [exited] and the query is what [queryAddEntity]
    returns; otherwise the entity is also taken out of [entered] and the
    query is what [queryRemoveEntity] returns.  The steps are the same for
    the add and for the remove; only the rewritten word differs. *)
Theorem query_synchronization (s : State) (id e : nat) (reset : bool)
    (r : Registration) (masks : list Z) (m : Z) (q : nat) :
  let s1 := if componentMap_has (world s) (Obj id)
            then s else (registerComponent (Obj id) s).2 in
  let shown (word : Z) : World :=
    mkWorld (world_bitflag (world s1)) (world_size (world s1))
      (<[Z.to_nat (generationId r) := <[e := word]> masks]>
         (world_entityMasks (world s1)))
      (world_componentMap (world s1)) (world_queries (world s1))
      (world_entityComponents (world s1)) (world_entitySparseSet (world s1)) in
  let step (w1 : World) (qo : Query) : Query :=
    let pending := toRemove qo ∖ {[e]} in
    if queryCheckEntity w1
         (mkQuery (allComponents qo) pending (entered qo) (exited qo) (results qo)) e
    then queryAddEntity
           (mkQuery (allComponents qo) pending (entered qo) (exited qo ∖ {[e]})
                    (results qo)) e
    else queryRemoveEntity w1
           (mkQuery (allComponents qo) pending (entered qo ∖ {[e]}) (exited qo)
                    (results qo)) e in
  wf_world (world s) ->
  e ∈ world_entitySparseSet (world s) ->
  world_componentMap (world s1) !! id = Some r ->
  world_entityMasks (world s1) !! Z.to_nat (generationId r) = Some masks ->
  masks !! e = Some m ->
  (Z.land m (bitflag r) <> bitflag r ->
   queryObjects (addComponent (Obj id) (Some e) reset s).2 !! q
   = if decide (q ∈ queries r)
     then step (shown (Z.lor m (bitflag r))) <$> queryObjects s !! q
     else queryObjects s !! q)
  /\ (componentMap_has (world s) (Obj id) = true ->
      Z.land m (bitflag r) = bitflag r ->
      queryObjects (removeComponent (Obj id) (Some e) reset s).2 !! q
      = if decide (q ∈ queries r)
        then step (shown (Z.ldiff m (bitflag r))) <$> queryObjects s !! q
        else queryObjects s !! q).
Proof.
  intros s1 shown step Hwf He Hr Hg Hm.
  assert (Hs1 : wf_world (world s1) /\ e ∈ world_entitySparseSet (world s1)
                /\ queryObjects s1 = queryObjects s
                /\ addComponent (Obj id) (Some e) reset s
                   = addComponent (Obj id) (Some e) reset s1).
  { subst s1. destruct (componentMap_has (world s) (Obj id)) eqn:Hhas.
    - split; [exact Hwf |]. split; [exact He |]. split; reflexivity.
    - assert (Hnone : world_componentMap (world s) !! id = None).
      { unfold componentMap_has in Hhas. apply bool_decide_eq_false_1 in Hhas.
        simpl in Hhas. destruct (world_componentMap (world s) !! id); [| reflexivity].
        exfalso. apply Hhas. eauto. }
      rewrite registerComponent_run. cbn [snd].
      split; [now apply wf_registered |].
      split; [now rewrite registered_entities |].
      split; [reflexivity | now apply addComponent_unregistered]. }
  destruct Hs1 as (Hwf1 & He1 & Hq1 & Hadd).
  destruct (wf_registry _ Hwf1 id r Hr) as (_ & _ & Hnd).
  assert (Hstep : forall w1 qo, synchronize w1 e qo = step w1 qo) by reflexivity.
  split.
  - intros Hbit. rewrite Hadd.
    rewrite (addComponent_queries _ _ _ _ _ _ _ Hwf1 He1 Hr Hg Hm Hbit).
    rewrite (synchronize_all_lookup _ _ _ _ _ Hnd), Hq1.
    rewrite (world_set_fields _ _ _ _ _ _ Hwf1 Hr Hg Hm).
    destruct (decide (q ∈ queries r)); [| reflexivity].
    now destruct (queryObjects s !! q).
  - intros Hhas Hbit.
    assert (Es : s1 = s) by (unfold s1; now rewrite Hhas).
    rewrite <- Es.
    rewrite (removeComponent_queries _ _ _ _ _ _ _ Hwf1 He1 Hr Hg Hm Hbit).
    rewrite (synchronize_all_lookup _ _ _ _ _ Hnd).
    rewrite (world_cleared_fields _ _ _ _ _ _ Hwf1 Hr Hg Hm).
    destruct (decide (q ∈ queries r)); [| reflexivity].
    now destruct (queryObjects s !! q).
Qed.

(** C5: each of the three mutations fails with [EntityUndefined] on an
    undefined entity and with [EntityNotFound] on an entity outside the
    existence set, and the state it leaves is the state it found, masks
    included. *)
Theorem existence_guard (s : State) (c : Component) (eid : option nat)
    (reset : bool) (data : JsVal) :
  (forall e, eid = Some e -> e ∉ world_entitySparseSet (world s)) ->
  let err := match eid with Some _ => EntityNotFound | None => EntityUndefined end in
  addComponent c eid reset s = (Thrown err, s)
  /\ removeComponent c eid reset s = (Thrown err, s)
  /\ updateComponent c eid data s = (Thrown err, s)
  /\ world_entityMasks (world (addComponent c eid reset s).2)
     = world_entityMasks (world s)
  /\ world_entityMasks (world (removeComponent c eid reset s).2)
     = world_entityMasks (world s)
  /\ world_entityMasks (world (updateComponent c eid data s).2)
     = world_entityMasks (world s).
Proof.
  intros Hout err. subst err. destruct eid as [e|].
  - destruct (guard_not_found c e reset data s (Hout e eq_refl)) as (-> & -> & ->).
    now repeat split.
  - now repeat split.
Qed.

(** C6: in a well-formed world and for an existing entity, two adds in a
    row end as one add does, two removes in a row end as one remove does,
    and an add of a present component, a remove of an absent one and an
    update of an absent one return normally with the state untouched. *)
Theorem noop_policy (s : State) (c : Component) (e : nat)
    (reset reset' : bool) (data : JsVal) :
  wf_world (world s) ->
  e ∈ world_entitySparseSet (world s) ->
  (addComponent c (Some e) reset ;; addComponent c (Some e) reset') s
  = addComponent c (Some e) reset s
  /\ (removeComponent c (Some e) reset ;; removeComponent c (Some e) reset') s
     = removeComponent c (Some e) reset s
  /\ (hasComponent (world s) c e = Returned true ->
      addComponent c (Some e) reset s = (Returned tt, s))
  /\ (hasComponent (world s) c e = Returned false ->
      removeComponent c (Some e) reset s = (Returned tt, s)
      /\ updateComponent c (Some e) data s = (Returned tt, s)).
Proof.
  intros Hwf He. split; [| split; [| split]].
  - destruct c as [|id].
    + unfold bind. now rewrite (addComponent_Nullish _ _ _ He).
    + destruct (addComponent_spec id e reset s Hwf He)
        as (s' & r & Hrun & _ & _ & _ & Hset & _ & _ & Hhas).
      unfold bind. rewrite Hrun.
      apply addComponent_present; [now rewrite Hset | exact Hhas].
  - destruct c as [|id].
    + unfold bind.
      now rewrite (removeComponent_absent Nullish e reset s He eq_refl),
                  (removeComponent_absent Nullish e reset' s He eq_refl).
    + destruct (world_componentMap (world s) !! id) as [r|] eqn:Hr.
      * destruct (removeComponent_registered_spec id e reset r s Hwf He Hr)
          as (s' & Hrun & _ & _ & Hset & _ & _ & Hhas).
        unfold bind. rewrite Hrun.
        apply removeComponent_absent; [now rewrite Hset | exact Hhas].
      * assert (Hh : hasComponent (world s) (Obj id) e = Returned false)
          by now apply hasComponent_unregistered.
        unfold bind.
        now rewrite (removeComponent_absent _ e reset s He Hh),
                    (removeComponent_absent _ e reset' s He Hh).
  - intros Hh. now apply addComponent_present.
  - intros Hh. split;
      [now apply removeComponent_absent | now apply updateComponent_absent].
Qed.

(** C7: a call of [addComponent] that leaves [reset] out runs with
    [reset = false] and writes to no store, so the values stored for the
    entity stay as they were; a call of [removeComponent] that leaves
    [reset] out runs with [reset = true], and when it detaches the component
    from an existing entity it returns with the store of the component
    replaced by [resetStoreFor] of it for that entity; with [reset = false]
    passed, [removeComponent] writes to no store.  A remove that finds the
    component not attached is the no-op of the membership test and leaves
    the state as it was. *)
Theorem data_reset_defaults (s : State) (c : Component) (eid : option nat)
    (id e : nat) (attached : list nat) :
  call_addComponent c eid None s = addComponent c eid false s
  /\ call_removeComponent c eid None s = removeComponent c eid true s
  /\ componentStores (call_addComponent c eid None s).2 = componentStores s
  /\ componentStores (call_removeComponent c eid (Some false) s).2 = componentStores s
  /\ (e ∈ world_entitySparseSet (world s) ->
      world_entityComponents (world s) !! e = Some attached ->
      hasComponent (world s) (Obj id) e = Returned true ->
      (call_removeComponent (Obj id) (Some e) None s).1 = Returned tt
      /\ componentStores (call_removeComponent (Obj id) (Some e) None s).2
         = <[id := resetStoreFor (deref (componentStores s) id) e]>
             (componentStores s))
  /\ (e ∈ world_entitySparseSet (world s) ->
      hasComponent (world s) c e = Returned false ->
      call_removeComponent c (Some e) None s = (Returned tt, s)).
Proof.
  split; [reflexivity |]. split; [reflexivity |].
  split; [apply addComponent_keeps_stores |].
  split; [apply removeComponent_keeps_stores |]. split.
  - intros He Ha Hh.
    change (call_removeComponent (Obj id) (Some e) None s)
      with (removeComponent (Obj id) (Some e) true s).
    destruct (hasComponent_registered _ _ _ _ Hh eq_refl)
      as (id' & r & masks & [= <-] & Hr & _).
    now rewrite (removeComponent_present _ _ _ _ _ _ He Hr Ha Hh).
  - intros He Hh. now apply removeComponent_absent.
Qed.

(** C8: data that is [undefined], a boolean, a number or a string ends
    the walk at once and leaves the section as it is, but [null] passes
    the [typeof] test and [Object.keys] throws: [updateComponent] on an
    attached component with [null] fails with a [TypeError]. *)
Theorem null_data_throws (s : State) (id e : nat) (section : StoreVal) :
  e ∈ world_entitySparseSet (world s) ->
  hasComponent (world s) (Obj id) e = Returned true ->
  (forall data,
      match data with VNull | VObject _ => False | _ => True end ->
      recursivelySetComponentAttributes e data section = (Returned tt, section))
  /\ recursivelySetComponentAttributes e VNull section = (Thrown TypeError, section)
  /\ (updateComponent (Obj id) (Some e) VNull s).1 = Thrown TypeError.
Proof.
  intros He Hh. split; [| split].
  - intros [| |b|n|str|props] Hd; solve [reflexivity | destruct Hd].
  - reflexivity.
  - now rewrite (updateComponent_present _ _ _ _ He Hh).
Qed.

(** C9: for a component whose store has the shape [{pos:{x,y}, hp}] with
    leaves that reach the entity, in a well-formed world and for an
    existing entity, [addAndPartiallyFillComponent] with
    [{pos:{x:1,y:2}, hp:10}] returns normally; the state it leaves is the
    one [addComponent] leaves, with the three leaves written at the index
    of the entity; the stricter variant is the same function. *)
Theorem nested_assignment (s : State) (id e : nat)
    (tx ty th : JS.ElementType) (xs ys hs : list Z) :
  wf_world (world s) ->
  e ∈ world_entitySparseSet (world s) ->
  deref (componentStores s) id = pos_hp_store tx ty th xs ys hs ->
  (e < length xs)%nat -> (e < length ys)%nat -> (e < length hs)%nat ->
  let after_add := addComponent (Obj id) (Some e) false s in
  let filled := addAndPartiallyFillComponent (Obj id) (Some e) Example.data0 false s in
  after_add.1 = Returned tt
  /\ filled
     = (Returned tt,
        set_componentStores
          (<[id := pos_hp_store tx ty th (<[e := 1]> xs) (<[e := 2]> ys)
                               (<[e := 10]> hs)]>
             (componentStores s)) after_add.2)
  /\ (exists xs' ys' hs',
        deref (componentStores filled.2) id = pos_hp_store tx ty th xs' ys' hs'
        /\ xs' !! e = Some 1 /\ ys' !! e = Some 2 /\ hs' !! e = Some 10)
  /\ addAndFillComponent (Obj id) (Some e) Example.data0 false s = filled.
Proof.
  intros Hwf He Hstore Hx Hy Hh after_add filled.
  destruct (addComponent_spec id e false s Hwf He)
    as (s' & r & Hrun & _ & _ & _ & Hset & _ & _ & Hhas).
  pose proof (addComponent_keeps_stores (Obj id) (Some e) s) as Hkeep.
  assert (Hfilled : filled
    = (Returned tt,
       set_componentStores
         (<[id := pos_hp_store tx ty th (<[e := 1]> xs) (<[e := 2]> ys)
                               (<[e := 10]> hs)]>
            (componentStores s)) after_add.2)).
  { subst filled after_add. unfold addAndPartiallyFillComponent, bind.
    rewrite Hrun in *. cbv beta iota. cbn [fst snd] in *.
    rewrite updateComponent_present; [| now rewrite Hset | exact Hhas].
    rewrite Hkeep, Hstore. unfold Example.data0, Example.pos, Example.x,
      Example.y, Example.hp.
    now rewrite assign_pos_hp, !stored_small by lia. }
  split; [subst after_add; now rewrite Hrun |]. split; [exact Hfilled |]. split.
  - exists (<[e := 1]> xs), (<[e := 2]> ys), (<[e := 10]> hs).
    rewrite Hfilled. simpl. unfold deref. rewrite lookup_insert_eq. simpl.
    now rewrite !list_lookup_insert_eq.
  - reflexivity.
Qed.

(** C10: when [addComponent] fails with [EntityUndefined] or
    [EntityNotFound] the state is the one it was called on: the registry
    has the same records, the cursor and the generations are the same. *)
Theorem guard_precedes_registration (s s' : State) (c : Component)
    (eid : option nat) (reset : bool) (err : Error) :
  addComponent c eid reset s = (Thrown err, s') ->
  err = EntityUndefined \/ err = EntityNotFound ->
  s' = s
  /\ world_componentMap (world s') = world_componentMap (world s)
  /\ world_bitflag (world s') = world_bitflag (world s)
  /\ world_entityMasks (world s') = world_entityMasks (world s).
Proof.
  intros Hrun Herr.
  assert (Hs : s' = s); [| now subst].
  destruct eid as [e|]; [| now injection Hrun].
  destruct (decide (e ∈ world_entitySparseSet (world s))) as [He|He].
  - destruct (addComponent_past_guard _ _ _ _ _ _ He Hrun), Herr; congruence.
  - rewrite (proj1 (guard_not_found c e reset VUndefined s He)) in Hrun.
    now injection Hrun.
Qed.

End Claims.

(** * Instances on the example world *)

Section Instances.
Import Example.

(** On the registered example component, an add leaves the bit set. *)
Lemma membership_invariant_witness :
  hasComponent
    (world (@addComponent spec_collaborators (Obj 0) (Some 1%nat) false state1).2)
    (Obj 0) 1
  = Returned true.
Proof.
  assert (Hwf : wf_world (world state1)) by wf_by_evaluation.
  assert (He : 1%nat ∈ world_entitySparseSet (world state1)) by by_evaluation.
  destruct (@membership_invariant spec_collaborators state1 (Obj 0) (Some 1%nat)
              false Hwf) as (_ & _ & _ & Hadd & _).
  destruct (Hadd 0%nat 1%nat eq_refl eq_refl He)
    as (s' & r & Hrun & _ & _ & _ & _ & Hhas).
  rewrite Hrun. exact Hhas.
Defined.

(** C3 as stated fails: a remove of the unregistered example component on
    an existing entity returns with no record for it and the cursor still
    at 1, where an add would have registered it and moved the cursor
    to 2. *)
Lemma removeComponent_registers_counterexample :
  let r := @removeComponent spec_collaborators (Obj 0) (Some 1%nat) true state0 in
  entityExists (world state0) 1 = true
  /\ world_componentMap (world state0) !! 0%nat = None
  /\ r.1 = Returned tt
  /\ world_componentMap (world r.2) !! 0%nat = None
  /\ world_bitflag (world r.2) = 1
  /\ world_bitflag (world (@addComponent spec_collaborators (Obj 0) (Some 1%nat)
                             false state0).2) = 2.
Proof. vm_compute. repeat split. Qed.

Lemma removeComponent_never_registers_witness :
  @removeComponent spec_collaborators (Obj 0) (Some 1%nat) true state0
  = (Returned tt, state0).
Proof.
  assert (Hc : componentMap_get (world state0) (Obj 0) = None) by reflexivity.
  assert (He : 1%nat ∈ world_entitySparseSet (world state0)) by by_evaluation.
  exact (proj2 (proj2 (@removeComponent_never_registers spec_collaborators
                         state0 (Obj 0) 1%nat true false Hc)) He).
Defined.

(** Adding the example component to entity 1, which waits in the removal
    queue and among the exit signals of the interested query: the entity
    leaves both and is entered.  Removing the component from entity 1, which
    is among the enter signals: the entity leaves them, and the results. *)
Lemma query_synchronization_witness :
  queryObjects
    (@addComponent spec_collaborators (Obj 0) (Some 1%nat) false state_exited).2
  !! 5%nat
  = Some (mkQuery [0%nat] ∅ {[1%nat]} ∅ {[1%nat]})
  /\ queryObjects
       (@removeComponent spec_collaborators (Obj 0) (Some 1%nat) true state_entered).2
     !! 5%nat
     = Some (mkQuery [0%nat] ∅ ∅ {[1%nat]} ∅).
Proof.
  split.
  - assert (Hwf : wf_world (world state_exited)) by wf_by_evaluation.
    assert (He : 1%nat ∈ world_entitySparseSet (world state_exited)) by by_evaluation.
    assert (Hbit : Z.land 0 (bitflag (granted state0 0)) <> bitflag (granted state0 0))
      by (vm_compute; discriminate).
    rewrite (proj1 (@query_synchronization spec_collaborators state_exited 0%nat 1%nat
                      false (granted state0 0) [0; 0; 0; 0] 0 5%nat Hwf He
                      eq_refl eq_refl eq_refl) Hbit).
    vm_compute. reflexivity.
  - assert (Hwf : wf_world (world state_entered)) by wf_by_evaluation.
    assert (He : 1%nat ∈ world_entitySparseSet (world state_entered)) by by_evaluation.
    rewrite (proj2 (@query_synchronization spec_collaborators state_entered 0%nat 1%nat
                      true (granted state0 0) [0; 1; 0; 0] 1 5%nat Hwf He
                      eq_refl eq_refl eq_refl) eq_refl eq_refl).
    vm_compute. reflexivity.
Defined.

Lemma existence_guard_witness :
  @addComponent spec_collaborators (Obj 0) (Some 7%nat) false state0
  = (Thrown EntityNotFound, state0)
  /\ @removeComponent spec_collaborators (Obj 0) None true state0
     = (Thrown EntityUndefined, state0).
Proof.
  split.
  - apply (@existence_guard spec_collaborators state0 (Obj 0) (Some 7%nat) false VNull).
    intros e [= <-]. by_evaluation.
  - apply (@existence_guard spec_collaborators state0 (Obj 0) None true VNull).
    intros e [=].
Defined.

Lemma noop_policy_witness :
  (@addComponent spec_collaborators (Obj 0) (Some 1%nat) false ;;
   @addComponent spec_collaborators (Obj 0) (Some 1%nat) true) state1
  = @addComponent spec_collaborators (Obj 0) (Some 1%nat) false state1.
Proof.
  assert (Hwf : wf_world (world state1)) by wf_by_evaluation.
  assert (He : 1%nat ∈ world_entitySparseSet (world state1)) by by_evaluation.
  exact (proj1 (@noop_policy spec_collaborators state1 (Obj 0) 1%nat false true
                  VUndefined Hwf He)).
Defined.

(** A call of [addComponent] without [reset] leaves the stale values 7, 8
    and 9 of entity 1; a call of [removeComponent] without [reset] on the
    attached example component zeroes them. *)
Lemma data_reset_defaults_witness :
  deref (componentStores
           (@call_addComponent spec_collaborators (Obj 0) (Some 1%nat) None state0).2) 0
  = pos_hp_store JS.Float32 JS.Float32 JS.Uint8 [0; 7; 0; 0] [0; 8; 0; 0] [0; 9; 0; 0]
  /\ deref (componentStores
              (@call_removeComponent spec_collaborators (Obj 0) (Some 1%nat) None
                 state2).2) 0
     = pos_hp_store JS.Float32 JS.Float32 JS.Uint8 [0; 0; 0; 0] [0; 0; 0; 0] [0; 0; 0; 0].
Proof.
  assert (He : 1%nat ∈ world_entitySparseSet (world state2)) by by_evaluation.
  assert (Ha : world_entityComponents (world state2) !! 1%nat = Some [0%nat])
    by (vm_compute; reflexivity).
  assert (Hh : hasComponent (world state2) (Obj 0) 1 = Returned true)
    by (vm_compute; reflexivity).
  destruct (@data_reset_defaults spec_collaborators state0 (Obj 0) (Some 1%nat) 0%nat
              1%nat []) as (_ & _ & Hadd & _).
  destruct (@data_reset_defaults spec_collaborators state2 (Obj 0) None 0%nat 1%nat
              [0%nat]) as (_ & _ & _ & _ & Hreset & _).
  destruct (Hreset He Ha Hh) as [_ Hstores].
  rewrite Hadd, Hstores. split; vm_compute; reflexivity.
Defined.

Lemma null_data_throws_witness :
  (updateComponent (Obj 0) (Some 1%nat) VNull state2).1 = Thrown TypeError.
Proof.
  assert (He : 1%nat ∈ world_entitySparseSet (world state2)) by by_evaluation.
  assert (Hh : hasComponent (world state2) (Obj 0) 1 = Returned true)
    by (vm_compute; reflexivity).
  exact (proj2 (proj2 (null_data_throws state2 0%nat 1%nat SUndefined He Hh))).
Defined.

Lemma nested_assignment_witness :
  deref (componentStores
           (@addAndPartiallyFillComponent spec_collaborators (Obj 0) (Some 1%nat)
              data0 false state0).2) 0
  = pos_hp_store JS.Float32 JS.Float32 JS.Uint8 [0; 1; 0; 0] [0; 2; 0; 0] [0; 10; 0; 0].
Proof.
  assert (Hwf : wf_world (world state0)) by wf_by_evaluation.
  assert (He : 1%nat ∈ world_entitySparseSet (world state0)) by by_evaluation.
  destruct (@nested_assignment spec_collaborators state0 0%nat 1%nat
              JS.Float32 JS.Float32 JS.Uint8
              [0; 7; 0; 0] [0; 8; 0; 0] [0; 9; 0; 0] Hwf He eq_refl)
    as (_ & -> & _); [simpl; lia .. |].
  vm_compute. reflexivity.
Defined.

Lemma guard_precedes_registration_witness :
  (@addComponent spec_collaborators (Obj 0) (Some 7%nat) false state0).2 = state0.
Proof.
  set (r := @addComponent spec_collaborators (Obj 0) (Some 7%nat) false state0).
  assert (Hrun : r = (Thrown EntityNotFound, r.2)) by (vm_compute; reflexivity).
  exact (proj1 (@guard_precedes_registration spec_collaborators state0 r.2 (Obj 0)
                  (Some 7%nat) false EntityNotFound Hrun (or_intror eq_refl))).
Defined.

End Instances.

(** * Beyond the claims: the worlds the operations reach *)

Section Coherence.
Context {ext : Collaborators}.

Lemma below_pow2_bits x k :
  0 <= k -> 0 <= x -> x < 2 ^ k <-> (forall n, k <= n -> Z.testbit x n = false).
Proof.
  intros Hk Hx. split.
  - intros Hlt n Hn. rewrite <- (Z.mod_small x (2 ^ k)) by lia.
    apply Z.mod_pow2_bits_high. lia.
  - intros Hbits.
    assert (Hmod : x mod 2 ^ k = x).
    { apply Z.bits_inj'. intros n Hn. destruct (Z.lt_ge_cases n k).
      - apply Z.mod_pow2_bits_low. lia.
      - rewrite Z.mod_pow2_bits_high by lia. symmetry. now apply Hbits. }
    rewrite <- Hmod. apply Z.mod_pos_bound. apply Z.pow_pos_nonneg; lia.
Qed.

Lemma land_below_pow2 x k : 0 <= k -> 0 <= x < 2 ^ k -> Z.land x (2 ^ k) = 0.
Proof.
  intros Hk [Hx Hlt]. apply Z.bits_inj'. intros n Hn.
  rewrite Z.land_spec, Z.bits_0, Z.pow2_bits_eqb by lia.
  destruct (Z.eqb_spec k n) as [->|]; [| apply andb_false_r].
  rewrite (proj1 (below_pow2_bits x n Hk Hx) Hlt n) by lia. reflexivity.
Qed.

Lemma lor_below_pow2 x b k :
  0 <= k -> 0 <= x < 2 ^ k -> 0 <= b < 2 ^ k -> Z.lor x b < 2 ^ k.
Proof.
  intros Hk [Hx Hxk] [Hb Hbk].
  apply below_pow2_bits; [exact Hk | now apply Z.lor_nonneg |].
  intros n Hn. rewrite Z.lor_spec.
  rewrite (proj1 (below_pow2_bits x k Hk Hx) Hxk n Hn).
  now rewrite (proj1 (below_pow2_bits b k Hk Hb) Hbk n Hn).
Qed.

Lemma ldiff_below_pow2 x b k :
  0 <= k -> 0 <= x < 2 ^ k -> Z.ldiff x b < 2 ^ k.
Proof.
  intros Hk [Hx Hxk].
  apply below_pow2_bits; [exact Hk | apply Z.ldiff_nonneg; now left |].
  intros n Hn. rewrite Z.ldiff_spec.
  now rewrite (proj1 (below_pow2_bits x k Hk Hx) Hxk n Hn).
Qed.

(** Two different usable bits have no bit in common. *)
Lemma valid_bitflags_disjoint b b' :
  valid_bitflag b -> valid_bitflag b' -> b <> b' -> Z.land b b' = 0.
Proof.
  intros Hb Hb' Hne.
  destruct (valid_bitflag_inv _ Hb) as (k & Hk & ->).
  destruct (valid_bitflag_inv _ Hb') as (k' & Hk' & ->).
  apply Z.bits_inj'. intros n Hn.
  rewrite Z.land_spec, Z.bits_0, !Z.pow2_bits_eqb by lia.
  destruct (Z.eqb_spec k n) as [->|]; [| reflexivity].
  destruct (Z.eqb_spec k' n) as [->|]; [congruence | reflexivity].
Qed.

Lemma land_lor_other x b b' : Z.land b b' = 0 -> Z.land (Z.lor x b) b' = Z.land x b'.
Proof.
  intros Hd. rewrite Z.land_lor_distr_l, Hd. apply Z.lor_0_r.
Qed.

Lemma land_ldiff_other x b b' : Z.land b b' = 0 -> Z.land (Z.ldiff x b) b' = Z.land x b'.
Proof.
  intros Hd. apply Z.bits_inj'. intros n Hn.
  apply (f_equal (fun z => Z.testbit z n)) in Hd.
  rewrite Z.land_spec, Z.bits_0 in Hd. rewrite !Z.land_spec, Z.ldiff_spec.
  destruct (Z.testbit x n), (Z.testbit b n), (Z.testbit b' n); simpl in *; congruence.
Qed.

(** Membership only depends on the record and on the bit of the word. *)
Lemma hasComponent_same w w' id r e :
  wf_world w -> wf_world w' ->
  world_componentMap w !! id = Some r ->
  world_componentMap w' !! id = Some r ->
  Z.land (mask_word w' (generationId r) e) (bitflag r)
  = Z.land (mask_word w (generationId r) e) (bitflag r) ->
  hasComponent w' (Obj id) e = hasComponent w (Obj id) e.
Proof.
  intros Hwf Hwf' Hr Hr' Hland.
  rewrite (hasComponent_wf _ _ _ e Hwf Hr), (hasComponent_wf _ _ _ e Hwf' Hr').
  now rewrite Hland.
Qed.

Lemma mask_word_outside w g e :
  Z.of_nat (length (world_entityMasks w)) <= g -> mask_word w g e = 0.
Proof.
  intros Hg. unfold mask_word, generation.
  destruct (g <? 0); [reflexivity |].
  rewrite lookup_ge_None_2 by lia. reflexivity.
Qed.

Lemma registered_map id s :
  world_componentMap (world (registered id s))
  = <[id := granted s id]> (world_componentMap (world s)).
Proof. unfold registered, next_cursor. simpl. now destruct (2 ^ 31 <=? _). Qed.

Lemma registered_attached id s :
  world_entityComponents (world (registered id s)) = world_entityComponents (world s).
Proof. unfold registered, next_cursor. simpl. now destruct (2 ^ 31 <=? _). Qed.

(** The cursor and the last generation after a registration. *)
Lemma registered_cursor id s :
  valid_bitflag (world_bitflag (world s)) ->
  (world_bitflag (world (registered id s)) = world_bitflag (world s) * 2
   /\ last_generation (world (registered id s)) = last_generation (world s))
  \/ (world_bitflag (world (registered id s)) = 1
      /\ last_generation (world (registered id s)) = last_generation (world s) + 1).
Proof.
  intros Hv. unfold registered, next_cursor, last_generation. simpl.
  destruct (Z.leb_spec (2 ^ 31) (world_bitflag (world s) * 2)); simpl.
  - right. split; [reflexivity |]. rewrite length_app. simpl. lia.
  - left. split; reflexivity.
Qed.

(** A registration grants the cursor bit of the last generation, which no
    entity has: right after it the component is absent everywhere, whether
    it had a record before or not. *)
Lemma registered_absent id s e :
  wf_world (world s) -> unassigned_clear (world s) ->
  hasComponent (world (registered id s)) (Obj id) e = Returned false.
Proof.
  intros Hwf Hclear.
  rewrite (hasComponent_wf _ id (granted s id) e (wf_registered id s Hwf)
             (registered_record id s)).
  f_equal. apply bool_decide_eq_false_2. rewrite mask_word_registered.
  change (generationId (granted s id)) with (last_generation (world s)).
  change (bitflag (granted s id)) with (world_bitflag (world s)).
  destruct (valid_bitflag_inv _ (wf_cursor _ Hwf)) as (k & Hk & Hb).
  pose proof (Hclear e) as Hlt. pose proof (mask_word_range _ (last_generation (world s)) e Hwf).
  rewrite Hb in *. rewrite land_below_pow2 by lia.
  assert (0 < 2 ^ k) by (apply Z.pow_pos_nonneg; lia). lia.
Qed.

(** Registering leaves every record below the cursor and every pair of
    records on different bits, also when the component had a record. *)
Lemma registered_below id s :
  wf_world (world s) ->
  map_Forall (fun _ r => below_cursor (world s) r) (world_componentMap (world s)) ->
  map_Forall (fun _ r => below_cursor (world (registered id s)) r)
             (world_componentMap (world (registered id s))).
Proof.
  intros Hwf Hbelow.
  pose proof (valid_bitflag_range _ (wf_cursor _ Hwf)) as Hpos.
  rewrite registered_map. unfold below_cursor.
  destruct (registered_cursor id s (wf_cursor _ Hwf)) as [[-> ->]|[-> ->]];
    apply map_Forall_insert_2.
  - right. split; [reflexivity |]. simpl. lia.
  - intros i r Hi. destruct (Hbelow i r Hi) as [|[? ?]]; [now left | right]. split; lia.
  - left. unfold last_generation. simpl. lia.
  - intros i r Hi. left. destruct (Hbelow i r Hi) as [|[? ?]]; lia.
Qed.

Lemma registered_distinct id s :
  map_Forall (fun _ r => below_cursor (world s) r) (world_componentMap (world s)) ->
  distinct_bits (world s) -> distinct_bits (world (registered id s)).
Proof.
  intros Hbelow Hdist i j ri rj. rewrite registered_map.
  assert (Hnew : forall k rk,
    world_componentMap (world s) !! k = Some rk ->
    generationId rk = generationId (granted s id) ->
    bitflag rk = bitflag (granted s id) -> False).
  { intros k rk Hk Hg Hb. destruct (Hbelow k rk Hk) as [Hlt|[_ Hlt]].
    - unfold last_generation in Hlt. simpl in Hg. lia.
    - simpl in Hb. lia. }
  destruct (decide (i = id)) as [->|Hi]; destruct (decide (j = id)) as [->|Hj];
    rewrite ?lookup_insert_eq, ?lookup_insert_ne by congruence.
  - reflexivity.
  - intros [= <-] Hj' Hg Hb. destruct (Hnew j rj Hj'); congruence.
  - intros Hi' [= <-] Hg Hb. destruct (Hnew i ri Hi'); congruence.
  - apply Hdist.
Qed.

Lemma registered_clear id s :
  wf_world (world s) -> unassigned_clear (world s) ->
  unassigned_clear (world (registered id s)).
Proof.
  intros Hwf Hclear e. rewrite mask_word_registered.
  pose proof (valid_bitflag_range _ (wf_cursor _ Hwf)) as Hpos.
  destruct (registered_cursor id s (wf_cursor _ Hwf)) as [[-> ->]|[-> ->]].
  - specialize (Hclear e). lia.
  - rewrite mask_word_outside; [lia |]. unfold last_generation. lia.
Qed.

(** Registering a component that had no record keeps the world coherent. *)
Lemma coherent_registered id s :
  coherent (world s) ->
  world_componentMap (world s) !! id = None ->
  coherent (world (registered id s)).
Proof.
  intros [Hwf Hbelow Hdist Hclear Hmirror] Hnone. split.
  - now apply wf_registered.
  - now apply registered_below.
  - now apply registered_distinct.
  - now apply registered_clear.
  - intros e attached id' Ha. rewrite registered_attached in Ha.
    rewrite (Hmirror e attached id' Ha).
    destruct (decide (id' = id)) as [->|Hne].
    + rewrite (registered_absent id s e Hwf Hclear).
      now rewrite (hasComponent_unregistered (world s) (Obj id) e Hnone).
    + destruct (world_componentMap (world s) !! id') as [r'|] eqn:Hr'.
      * rewrite (hasComponent_same (world s) (world (registered id s)) id' r' e Hwf
                   (wf_registered id s Hwf) Hr'); [reflexivity | |].
        -- now rewrite registered_map, lookup_insert_ne.
        -- now rewrite mask_word_registered.
      * rewrite (hasComponent_unregistered (world s) (Obj id') e Hr').
        rewrite hasComponent_unregistered; [reflexivity |].
        unfold componentMap_get. now rewrite registered_map, lookup_insert_ne.
Qed.

Lemma elem_of_Set_add x y xs : x ∈ Set_add y xs <-> x = y \/ x ∈ xs.
Proof.
  unfold Set_add. destruct (decide (y ∈ xs)) as [Hy|Hy].
  - split; [intros Hx; now right | intros [->|Hx]; assumption].
  - split.
    + intros Hx. apply elem_of_app in Hx. destruct Hx as [Hx|Hx]; [now right |].
      left. now apply list_elem_of_singleton in Hx.
    + intros [->|Hx]; apply elem_of_app; [right | now left].
      now apply list_elem_of_singleton.
Qed.

Lemma elem_of_Set_delete x y xs : x ∈ Set_delete y xs <-> x <> y /\ x ∈ xs.
Proof. unfold Set_delete. now rewrite list_elem_of_filter. Qed.

(** The words of the state an effective add leaves. *)
Lemma added_word id e reset r attached s masks :
  wf_world (world s) ->
  world_componentMap (world s) !! id = Some r ->
  generation (world s) (generationId r) = Some masks -> (e < length masks)%nat ->
  mask_word (world (added id e reset r attached s)) (generationId r) e
  = Z.lor (mask_word (world s) (generationId r) e) (bitflag r)
  /\ (forall g' e', g' <> generationId r \/ e' <> e ->
        mask_word (world (added id e reset r attached s)) g' e'
        = mask_word (world s) g' e').
Proof.
  intros Hwf Hr Hg Hlt. destruct (wf_record _ _ _ Hwf Hr) as (Hb & _).
  unfold added, world_set. simpl. split.
  - change (mask_word (set_world_entityComponents ?m ?w)) with (mask_word w).
    rewrite (mask_word_write_eq _ _ _ _ masks Hg Hlt).
    apply bitor_stored; [| lia]. apply (mask_word_range _ _ _ Hwf).
  - intros g' e' Hne.
    change (mask_word (set_world_entityComponents ?m ?w)) with (mask_word w).
    apply mask_word_write_ne; [| exact Hne]. now destruct (generation_Some _ _ _ Hg).
Qed.

Lemma removed_word id e reset r attached s masks :
  wf_world (world s) ->
  world_componentMap (world s) !! id = Some r ->
  generation (world s) (generationId r) = Some masks -> (e < length masks)%nat ->
  mask_word (world (removed id e reset r attached s)) (generationId r) e
  = Z.ldiff (mask_word (world s) (generationId r) e) (bitflag r)
  /\ (forall g' e', g' <> generationId r \/ e' <> e ->
        mask_word (world (removed id e reset r attached s)) g' e'
        = mask_word (world s) g' e').
Proof.
  intros Hwf Hr Hg Hlt. destruct (wf_record _ _ _ Hwf Hr) as (Hb & _).
  unfold removed, world_cleared. simpl. split.
  - change (mask_word (set_world_entityComponents ?m ?w)) with (mask_word w).
    rewrite (mask_word_write_eq _ _ _ _ masks Hg Hlt).
    apply bitclear_stored; [| lia]. apply (mask_word_range _ _ _ Hwf).
  - intros g' e' Hne.
    change (mask_word (set_world_entityComponents ?m ?w)) with (mask_word w).
    apply mask_word_write_ne; [| exact Hne]. now destruct (generation_Some _ _ _ Hg).
Qed.

(** A world that differs from a coherent one in one word, where the bit of
    one record was set or cleared, tests every other membership as
    before. *)
Lemma toggle_frame w w' id r e (f : Z -> Z) id' e' :
  wf_world w -> wf_world w' -> distinct_bits w ->
  world_componentMap w' = world_componentMap w ->
  world_componentMap w !! id = Some r ->
  mask_word w' (generationId r) e = f (mask_word w (generationId r) e) ->
  (forall x b', Z.land (bitflag r) b' = 0 -> Z.land (f x) b' = Z.land x b') ->
  (forall g0 e0, g0 <> generationId r \/ e0 <> e -> mask_word w' g0 e0 = mask_word w g0 e0) ->
  id' <> id \/ e' <> e ->
  hasComponent w' (Obj id') e' = hasComponent w (Obj id') e'.
Proof.
  intros Hwf Hwf' Hdist Hmap Hr Hword Hf Hrest Hne.
  destruct (world_componentMap w !! id') as [r'|] eqn:Hr'.
  - apply (hasComponent_same w w' id' r' e' Hwf Hwf' Hr'); [now rewrite Hmap |].
    destruct (decide (generationId r' = generationId r /\ e' = e)) as [[Hg ->]|Hother].
    + rewrite Hg, Hword. apply Hf.
      destruct Hne as [Hne|]; [| congruence].
      destruct Hwf as [_ _ _ Hreg _].
      destruct (Hreg id r Hr) as (_ & Hv & _). destruct (Hreg id' r' Hr') as (_ & Hv' & _).
      apply valid_bitflags_disjoint; [exact Hv | exact Hv' |].
      intros Hb. apply Hne. now apply (Hdist id' id r' r Hr' Hr).
    + rewrite Hrest; [reflexivity |].
      destruct (decide (generationId r' = generationId r)); [right | left]; tauto.
  - rewrite !hasComponent_unregistered; [reflexivity | exact Hr' |].
    unfold componentMap_get. now rewrite Hmap.
Qed.

(** Coherence survives a change of one word by a function that keeps the
    other bits, together with the matching change of the attached set. *)
Lemma coherent_toggle w w' id r e (f : Z -> Z) attached attached' :
  coherent w -> wf_world w' ->
  world_componentMap w' = world_componentMap w ->
  world_bitflag w' = world_bitflag w ->
  last_generation w' = last_generation w ->
  world_componentMap w !! id = Some r ->
  mask_word w' (generationId r) e = f (mask_word w (generationId r) e) ->
  (forall x b', Z.land (bitflag r) b' = 0 -> Z.land (f x) b' = Z.land x b') ->
  (forall x k, 0 <= k -> 0 <= x < 2 ^ k -> bitflag r < 2 ^ k -> f x < 2 ^ k) ->
  (forall g0 e0, g0 <> generationId r \/ e0 <> e -> mask_word w' g0 e0 = mask_word w g0 e0) ->
  world_entityComponents w' = <[e := attached']> (world_entityComponents w) ->
  world_entityComponents w !! e = Some attached ->
  (forall id0, id0 <> id -> id0 ∈ attached' <-> id0 ∈ attached) ->
  (id ∈ attached' <-> hasComponent w' (Obj id) e = Returned true) ->
  coherent w'.
Proof.
  intros [Hwf Hbelow Hdist Hclear Hmirror] Hwf' Hmap Hcur Hlast Hr Hword Hf Hfk Hrest
         Hatt Ha Hothers Hself.
  assert (Hframe : forall id' e', id' <> id \/ e' <> e ->
            hasComponent w' (Obj id') e' = hasComponent w (Obj id') e')
    by (intros id' e'; now apply (toggle_frame w w' id r e f)).
  split.
  - exact Hwf'.
  - rewrite Hmap. intros i ri Hi. unfold below_cursor. rewrite Hcur, Hlast.
    exact (Hbelow i ri Hi).
  - unfold distinct_bits. rewrite Hmap. exact Hdist.
  - intros e0. rewrite Hcur, Hlast.
    destruct (decide (last_generation w = generationId r /\ e0 = e)) as [[Hg ->]|Hother].
    + rewrite Hg, Hword.
      destruct (valid_bitflag_inv _ (wf_cursor _ Hwf)) as (k & Hk & Hb).
      destruct (Hbelow id r Hr) as [Hlt|[_ Hlt]]; [lia |].
      pose proof (Hclear e) as Hx. rewrite Hg in Hx.
      pose proof (mask_word_range w (generationId r) e Hwf).
      rewrite Hb in *. apply Hfk; lia.
    + rewrite Hrest; [apply Hclear |].
      destruct (decide (last_generation w = generationId r)); [right | left]; tauto.
  - intros e0 attached0 id0. rewrite Hatt.
    destruct (decide (e0 = e)) as [->|He0].
    + rewrite lookup_insert_eq. intros [= <-].
      destruct (decide (id0 = id)) as [->|Hid0]; [exact Hself |].
      rewrite (Hothers id0 Hid0), (Hmirror e attached id0 Ha).
      rewrite Hframe; [reflexivity | now left].
    + rewrite lookup_insert_ne by congruence. intros Ha0.
      rewrite (Hmirror e0 attached0 id0 Ha0).
      rewrite Hframe; [reflexivity | now right].
Qed.

Lemma coherent_added id e reset r attached s :
  coherent (world s) -> e ∈ world_entitySparseSet (world s) ->
  world_componentMap (world s) !! id = Some r ->
  world_entityComponents (world s) !! e = Some attached ->
  coherent (world (added id e reset r attached s)).
Proof.
  intros Hcoh He Hr Ha. pose proof (coh_wf _ Hcoh) as Hwf.
  destruct (wf_cell _ _ _ _ Hwf Hr He) as (masks & attached0 & Hg & Hlt & Ha0).
  destruct (added_word id e reset r attached s masks Hwf Hr Hg Hlt) as [Hword Hrest].
  pose proof (wf_added id e reset r attached s Hwf) as Hwf'.
  destruct (wf_record _ _ _ Hwf Hr) as (Hb & _).
  apply (coherent_toggle (world s) _ id r e (fun x => Z.lor x (bitflag r))
           attached (Set_add id attached)); try assumption; try reflexivity.
  - unfold last_generation, added, world_set, write_mask. simpl.
    now rewrite length_alter.
  - intros x b' Hd. now apply land_lor_other.
  - intros x k Hk Hx Hbk. apply lor_below_pow2; lia.
  - intros id0 Hid0. rewrite elem_of_Set_add. tauto.
  - rewrite elem_of_Set_add.
    rewrite (hasComponent_wf _ id r e Hwf') by exact Hr.
    rewrite Hword, bool_decide_eq_true_2 by apply land_lor_flag. tauto.
Qed.

Lemma coherent_removed id e reset r attached s :
  coherent (world s) -> e ∈ world_entitySparseSet (world s) ->
  world_componentMap (world s) !! id = Some r ->
  world_entityComponents (world s) !! e = Some attached ->
  coherent (world (removed id e reset r attached s)).
Proof.
  intros Hcoh He Hr Ha. pose proof (coh_wf _ Hcoh) as Hwf.
  destruct (wf_cell _ _ _ _ Hwf Hr He) as (masks & attached0 & Hg & Hlt & Ha0).
  destruct (removed_word id e reset r attached s masks Hwf Hr Hg Hlt) as [Hword Hrest].
  pose proof (wf_removed id e reset r attached s Hwf) as Hwf'.
  destruct (wf_record _ _ _ Hwf Hr) as (Hb & _).
  apply (coherent_toggle (world s) _ id r e (fun x => Z.ldiff x (bitflag r))
           attached (Set_delete id attached)); try assumption; try reflexivity.
  - unfold last_generation, removed, world_cleared, write_mask. simpl.
    now rewrite length_alter.
  - intros x b' Hd. now apply land_ldiff_other.
  - intros x k Hk Hx Hbk. now apply ldiff_below_pow2.
  - intros id0 Hid0. rewrite elem_of_Set_delete. tauto.
  - rewrite elem_of_Set_delete.
    rewrite (hasComponent_wf _ id r e Hwf') by exact Hr.
    rewrite Hword, bool_decide_eq_false_2 by (rewrite land_ldiff_flag; lia).
    split; [tauto | discriminate].
Qed.

(** A first registration changes no membership: the new component is absent
    everywhere, as it was while it had no record, and the others keep their
    records and their words. *)
Lemma registered_frame id s id' e' :
  wf_world (world s) -> unassigned_clear (world s) ->
  world_componentMap (world s) !! id = None ->
  hasComponent (world (registered id s)) (Obj id') e'
  = hasComponent (world s) (Obj id') e'.
Proof.
  intros Hwf Hclear Hnone. destruct (decide (id' = id)) as [->|Hne].
  - rewrite (registered_absent id s e' Hwf Hclear).
    now rewrite (hasComponent_unregistered (world s) (Obj id) e' Hnone).
  - destruct (world_componentMap (world s) !! id') as [r'|] eqn:Hr'.
    + apply (hasComponent_same (world s) (world (registered id s)) id' r' e' Hwf
               (wf_registered id s Hwf) Hr').
      * now rewrite registered_map, lookup_insert_ne.
      * now rewrite mask_word_registered.
    + rewrite (hasComponent_unregistered (world s) (Obj id') e' Hr').
      apply hasComponent_unregistered.
      unfold componentMap_get. now rewrite registered_map, lookup_insert_ne.
Qed.

Lemma addComponent_registered_frame id e reset r s id' e' :
  coherent (world s) -> e ∈ world_entitySparseSet (world s) ->
  world_componentMap (world s) !! id = Some r ->
  id' <> id \/ e' <> e ->
  hasComponent (world (addComponent (Obj id) (Some e) reset s).2) (Obj id') e'
  = hasComponent (world s) (Obj id') e'.
Proof.
  intros Hcoh He Hr Hne. pose proof (coh_wf _ Hcoh) as Hwf.
  destruct (wf_cell _ _ _ _ Hwf Hr He) as (masks & attached & Hg & Hlt & Ha).
  rewrite (addComponent_registered_paths _ _ _ _ _ He Hr), Hg, Ha.
  destruct (hasComponent (world s) (Obj id) e) as [[|]|]; try reflexivity.
  destruct (added_word id e reset r attached s masks Hwf Hr Hg Hlt) as [Hword Hrest].
  apply (toggle_frame (world s) _ id r e (fun x => Z.lor x (bitflag r)));
    try assumption; try reflexivity.
  - now apply wf_added.
  - apply (coh_distinct _ Hcoh).
  - intros x b' Hd. now apply land_lor_other.
Qed.

Lemma removeComponent_registered_frame id e reset r s id' e' :
  coherent (world s) -> e ∈ world_entitySparseSet (world s) ->
  world_componentMap (world s) !! id = Some r ->
  id' <> id \/ e' <> e ->
  hasComponent (world (removeComponent (Obj id) (Some e) reset s).2) (Obj id') e'
  = hasComponent (world s) (Obj id') e'.
Proof.
  intros Hcoh He Hr Hne. pose proof (coh_wf _ Hcoh) as Hwf.
  destruct (wf_cell _ _ _ _ Hwf Hr He) as (masks & attached & Hg & Hlt & Ha).
  rewrite (removeComponent_paths _ _ _ _ He). simpl. rewrite Hr, Hg, Ha.
  destruct (hasComponent (world s) (Obj id) e) as [[|]|]; try reflexivity.
  destruct (removed_word id e reset r attached s masks Hwf Hr Hg Hlt) as [Hword Hrest].
  apply (toggle_frame (world s) _ id r e (fun x => Z.ldiff x (bitflag r)));
    try assumption; try reflexivity.
  - now apply wf_removed.
  - apply (coh_distinct _ Hcoh).
  - intros x b' Hd. now apply land_ldiff_other.
Qed.

Lemma addComponent_registered_coherent id e reset r s :
  coherent (world s) -> e ∈ world_entitySparseSet (world s) ->
  world_componentMap (world s) !! id = Some r ->
  coherent (world (addComponent (Obj id) (Some e) reset s).2).
Proof.
  intros Hcoh He Hr. pose proof (coh_wf _ Hcoh) as Hwf.
  destruct (wf_cell _ _ _ _ Hwf Hr He) as (masks & attached & Hg & Hlt & Ha).
  rewrite (addComponent_registered_paths _ _ _ _ _ He Hr), Hg, Ha.
  destruct (hasComponent (world s) (Obj id) e) as [[|]|]; try exact Hcoh.
  now apply coherent_added.
Qed.

Lemma addComponent_coherent c eid reset s :
  coherent (world s) -> coherent (world (addComponent c eid reset s).2).
Proof.
  intros Hcoh. destruct eid as [e|]; [| exact Hcoh].
  destruct (decide (e ∈ world_entitySparseSet (world s))) as [He|He];
    [| now rewrite (proj1 (guard_not_found c e reset VUndefined s He))].
  destruct c as [|id]; [now rewrite (addComponent_Nullish _ _ _ He) |].
  destruct (world_componentMap (world s) !! id) as [r|] eqn:Hr.
  - now apply (addComponent_registered_coherent id e reset r).
  - rewrite (addComponent_unregistered _ _ _ _ He Hr).
    apply (addComponent_registered_coherent id e reset (granted s id)).
    + now apply coherent_registered.
    + now rewrite registered_entities.
    + apply registered_record.
Qed.

Lemma removeComponent_coherent c eid reset s :
  coherent (world s) -> coherent (world (removeComponent c eid reset s).2).
Proof.
  intros Hcoh. pose proof (coh_wf _ Hcoh) as Hwf.
  destruct eid as [e|]; [| exact Hcoh].
  destruct (decide (e ∈ world_entitySparseSet (world s))) as [He|He];
    [| now rewrite (proj1 (proj2 (guard_not_found c e reset VUndefined s He)))].
  rewrite (removeComponent_paths _ _ _ _ He).
  destruct (hasComponent (world s) c e) as [[|]|]; try exact Hcoh.
  destruct c as [|id]; [exact Hcoh |]. simpl.
  destruct (world_componentMap (world s) !! id) as [r|] eqn:Hr; [| exact Hcoh].
  destruct (wf_cell _ _ _ _ Hwf Hr He) as (masks & attached & Hg & Hlt & Ha).
  rewrite Hg, Ha. now apply coherent_removed.
Qed.

Lemma updateComponent_world c eid data s :
  world (updateComponent c eid data s).2 = world s
  /\ queryObjects (updateComponent c eid data s).2 = queryObjects s.
Proof.
  destruct eid as [e|]; [| now split].
  unfold updateComponent, bind, get, lift, ret. simpl.
  destruct (entityExists (world s) e); simpl; [| now split].
  destruct (hasComponent (world s) c e) as [[|]|]; simpl; try now split.
  destruct c as [|id]; [now split |].
  now destruct (recursivelySetComponentAttributes e data _).
Qed.

(** A world without records, bits or attachments is coherent as soon as it
    is well-formed. *)
Lemma coherent_fresh w :
  wf_world w ->
  world_componentMap w = ∅ ->
  Forall (Forall (eq 0)) (world_entityMasks w) ->
  map_Forall (fun _ attached => attached = []) (world_entityComponents w) ->
  coherent w.
Proof.
  intros Hwf Hmap Hzero Hnone. split.
  - exact Hwf.
  - rewrite Hmap. apply map_Forall_empty.
  - intros i j ri rj Hi. rewrite Hmap, lookup_empty in Hi. discriminate.
  - intros e. pose proof (valid_bitflag_range _ (wf_cursor _ Hwf)).
    unfold mask_word, generation. destruct (_ <? 0); simpl; [lia |].
    destruct (world_entityMasks w !! _) as [masks|] eqn:Hg; simpl; [| lia].
    destruct (masks !! e) as [m|] eqn:Hm; simpl; [| lia].
    rewrite Forall_lookup in Hzero. specialize (Hzero _ _ Hg).
    rewrite Forall_lookup in Hzero. rewrite <- (Hzero _ _ Hm). lia.
  - intros e attached id Ha. rewrite (Hnone e attached Ha).
    rewrite hasComponent_unregistered
      by (unfold componentMap_get; now rewrite Hmap, lookup_empty).
    split; [intros Hin; now apply not_elem_of_nil in Hin | discriminate].
Qed.

(** X1: a coherent world stays coherent under [addComponent],
    [removeComponent] and [updateComponent], whatever their arguments and
    however they end, and under the registration of a component that has no
    record yet: records stay on pairwise different bits below the cursor,
    no unassigned bit gets set, and the attached-component set of every
    entity lists exactly the components [hasComponent] finds on it. *)
Theorem coherence_kept (s : State) (c : Component) (eid : option nat)
    (reset : bool) (data : JsVal) :
  coherent (world s) ->
  coherent (world (addComponent c eid reset s).2)
  /\ coherent (world (removeComponent c eid reset s).2)
  /\ coherent (world (updateComponent c eid data s).2)
  /\ (componentMap_get (world s) c = None ->
      coherent (world (registerComponent c s).2)).
Proof.
  intros Hcoh. split; [now apply addComponent_coherent |].
  split; [now apply removeComponent_coherent |].
  split; [now rewrite (proj1 (updateComponent_world c eid data s)) |].
  destruct c as [|id]; [intros _; exact Hcoh |].
  intros Hnone. rewrite registerComponent_run. now apply coherent_registered.
Qed.

(** X2: in a coherent world an add or a remove of one component on one
    entity changes no other membership: [hasComponent] answers as before
    for every other registered or unregistered component and for the same
    component on every other entity, also when the add registers the
    component on the way. *)
Theorem membership_frame (s : State) (c : Component) (eid : option nat)
    (reset : bool) (id' e' : nat) :
  coherent (world s) ->
  c <> Obj id' \/ eid <> Some e' ->
  hasComponent (world (addComponent c eid reset s).2) (Obj id') e'
  = hasComponent (world s) (Obj id') e'
  /\ hasComponent (world (removeComponent c eid reset s).2) (Obj id') e'
     = hasComponent (world s) (Obj id') e'.
Proof.
  intros Hcoh Hne. pose proof (coh_wf _ Hcoh) as Hwf.
  destruct eid as [e|]; [| now split].
  destruct (decide (e ∈ world_entitySparseSet (world s))) as [He|He].
  2: { destruct (guard_not_found c e reset VUndefined s He) as (-> & -> & _).
       now split. }
  destruct c as [|id].
  { rewrite (addComponent_Nullish _ _ _ He).
    now rewrite (removeComponent_absent Nullish e reset s He eq_refl). }
  assert (Hne' : id' <> id \/ e' <> e).
  { destruct (decide (id' = id)) as [->|]; [right | now left].
    destruct Hne as [Hne|Hne]; congruence. }
  destruct (world_componentMap (world s) !! id) as [r|] eqn:Hr.
  - split.
    + now apply (addComponent_registered_frame id e reset r).
    + now apply (removeComponent_registered_frame id e reset r).
  - split.
    + rewrite (addComponent_unregistered _ _ _ _ He Hr).
      rewrite (addComponent_registered_frame id e reset (granted s id));
        [| now apply coherent_registered | now rewrite registered_entities
         | apply registered_record | exact Hne'].
      apply registered_frame; [exact Hwf | apply (coh_clear _ Hcoh) | exact Hr].
    + now rewrite (removeComponent_absent (Obj id) e reset s He
                     (hasComponent_unregistered _ (Obj id) e Hr)).
Qed.

(** X3: right after [registerComponent] the component is on no entity,
    also when it had a record and was attached before: the new record
    points at the cursor bit, which no entity has, while every mask word
    stays as it was. *)
Theorem reregistration_detaches (s : State) (id e : nat) :
  coherent (world s) ->
  let s' := (registerComponent (Obj id) s).2 in
  hasComponent (world s') (Obj id) e = Returned false
  /\ (forall g e', mask_word (world s') g e' = mask_word (world s) g e')
  /\ world_entityComponents (world s') = world_entityComponents (world s).
Proof.
  intros Hcoh s'. subst s'. rewrite registerComponent_run.
  split; [apply registered_absent; [apply (coh_wf _ Hcoh) | apply (coh_clear _ Hcoh)] |].
  split; [intros g e'; apply mask_word_registered | apply registered_attached].
Qed.

Lemma Set_delete_add id attached :
  id ∉ attached -> Set_delete id (Set_add id attached) = attached.
Proof.
  intros Hid. unfold Set_add, Set_delete.
  destruct (decide (id ∈ attached)) as [|_]; [contradiction |].
  induction attached as [|x xs IH]; simpl.
  - rewrite filter_cons_False, filter_nil; [reflexivity | tauto].
  - apply not_elem_of_cons in Hid. destruct Hid as [Hx Hxs].
    rewrite filter_cons_True by congruence. f_equal. now apply IH.
Qed.

Lemma ldiff_lor_flag x b : Z.ldiff (Z.lor x b) b = Z.ldiff x b.
Proof.
  apply Z.bits_inj'. intros n _. rewrite !Z.ldiff_spec, Z.lor_spec.
  destruct (Z.testbit x n), (Z.testbit b n); reflexivity.
Qed.

(** Writing a word back restores the masks. *)
Lemma write_mask_restore w g e v1 v2 masks x :
  generation w g = Some masks -> masks !! e = Some x -> JS.ToUint32 v2 = x ->
  world_entityMasks (write_mask g e v2 (write_mask g e v1 w)) = world_entityMasks w.
Proof.
  intros Hg He Hv. destruct (generation_Some _ _ _ Hg) as [_ Hl].
  unfold write_mask. simpl. rewrite list_alter_alter_eq.
  apply list_eq. intros i. destruct (decide (i = Z.to_nat g)) as [->|Hi].
  - rewrite list_lookup_alter_eq, Hl. simpl. f_equal.
    rewrite list_insert_insert_eq, Hv. now apply list_insert_id.
  - now rewrite list_lookup_alter_ne.
Qed.

(** X4: in a coherent world, adding a registered component an existing
    entity does not have and removing it again gives back the world as it
    was: cursor, generations, registry and attached-component sets. *)
Theorem add_remove_round_trip (s : State) (id e : nat) (r : Registration)
    (reset reset' : bool) :
  coherent (world s) ->
  e ∈ world_entitySparseSet (world s) ->
  world_componentMap (world s) !! id = Some r ->
  hasComponent (world s) (Obj id) e = Returned false ->
  let s1 := (addComponent (Obj id) (Some e) reset s).2 in
  let s2 := removeComponent (Obj id) (Some e) reset' s1 in
  hasComponent (world s1) (Obj id) e = Returned true
  /\ s2.1 = Returned tt
  /\ world s2.2 = world s.
Proof.
  intros Hcoh He Hr Hh s1 s2. pose proof (coh_wf _ Hcoh) as Hwf.
  destruct (wf_cell _ _ _ _ Hwf Hr He) as (masks & attached & Hg & Hlt & Ha).
  destruct (wf_record _ _ _ Hwf Hr) as (Hb & _).
  assert (Hs1 : s1 = added id e reset r attached s).
  { subst s1. now rewrite (addComponent_absent _ _ _ _ _ _ _ He Hr Hg Ha Hh). }
  destruct (added_word id e reset r attached s masks Hwf Hr Hg Hlt) as [Hword _].
  pose proof (wf_added id e reset r attached s Hwf) as Hwf1.
  assert (Hh1 : hasComponent (world s1) (Obj id) e = Returned true).
  { rewrite Hs1, (hasComponent_wf _ id r e Hwf1) by exact Hr.
    now rewrite Hword, bool_decide_eq_true_2 by apply land_lor_flag. }
  assert (Ha1 : world_entityComponents (world s1) !! e = Some (Set_add id attached))
    by (rewrite Hs1; apply lookup_insert_eq).
  assert (Hrun : s2 = (Returned tt, removed id e reset' r (Set_add id attached) s1)).
  { subst s2. apply removeComponent_present; try assumption; now rewrite Hs1. }
  split; [exact Hh1 |]. split; [now rewrite Hrun |]. rewrite Hrun. simpl.
  assert (Hnot : id ∉ attached).
  { rewrite (coh_mirror _ Hcoh e attached id Ha), Hh. discriminate. }
  assert (Hx : exists x, masks !! e = Some x) by now apply lookup_lt_is_Some_2.
  destruct Hx as [x Hx].
  assert (Hrange : 0 <= x < 2 ^ 32).
  { pose proof (mask_word_range (world s) (generationId r) e Hwf) as Hmr.
    unfold mask_word in Hmr. now rewrite Hg in Hmr; simpl in Hmr; rewrite Hx in Hmr. }
  assert (Habsent : Z.land x (bitflag r) <> bitflag r).
  { rewrite (hasComponent_wf _ _ _ e Hwf Hr) in Hh. injection Hh as Hh.
    apply bool_decide_eq_false_1 in Hh. unfold mask_word in Hh.
    now rewrite Hg in Hh; simpl in Hh; rewrite Hx in Hh. }
  assert (Hv : valid_bitflag (bitflag r)).
  { destruct Hwf as [_ _ _ Hreg _]. now destruct (Hreg id r Hr) as (_ & ? & _). }
  assert (Hmasks : world_entityMasks (world (removed id e reset' r (Set_add id attached) s1))
                   = world_entityMasks (world s)).
  { rewrite Hs1. unfold removed, added, world_cleared, world_set. simpl.
    unfold generation at 1 3. simpl. fold (generation (world s) (generationId r)).
    rewrite Hg. simpl. destruct (generation_Some _ _ _ Hg) as [Hpos Hl].
    destruct (Z.ltb_spec (generationId r) 0); [lia |].
    rewrite list_lookup_alter_eq, Hl. simpl.
    rewrite list_lookup_insert_eq by exact Hlt. rewrite Hx.
    apply (write_mask_restore (world s) _ _ _ _ masks x Hg Hx).
    rewrite bitor_stored by (simpl; lia).
    rewrite bitclear_stored.
    - simpl. rewrite ldiff_lor_flag. now apply ldiff_absent.
    - simpl. split; [apply Z.lor_nonneg; lia |].
      apply (lor_below_pow2 x (bitflag r) 32); lia.
    - lia. }
  assert (Hatt : world_entityComponents
                   (world (removed id e reset' r (Set_add id attached) s1))
                 = world_entityComponents (world s)).
  { rewrite Hs1. unfold removed, added, world_cleared, world_set. simpl.
    rewrite insert_insert_eq, Set_delete_add by exact Hnot. now apply insert_id. }
  revert Hmasks Hatt. rewrite Hs1.
  unfold removed, added, world_cleared, world_set, write_mask. simpl.
  destruct s as [w objs stores]. destruct w. simpl. now intros -> ->.
Qed.

End Coherence.

(** * Beyond the claims: registration *)

Section RegistrationFacts.

Lemma elem_of_interested objs id qs q :
  q ∈ interested objs id qs
  <-> q ∈ qs /\ exists qo, objs !! q = Some qo /\ id ∈ allComponents qo.
Proof.
  unfold interested.
  assert (Hgen : forall acc,
    q ∈ foldl (fun acc q =>
                 match objs !! q with
                 | Some qo => if decide (id ∈ allComponents qo)
                              then Set_add q acc else acc
                 | None => acc
                 end) acc qs
    <-> q ∈ acc \/ (q ∈ qs /\ exists qo, objs !! q = Some qo /\ id ∈ allComponents qo)).
  { induction qs as [|q0 qs IH]; intros acc; simpl.
    - split; [now left | intros [|[Hq _]]; [assumption |]].
      now apply not_elem_of_nil in Hq.
    - rewrite IH, elem_of_cons. clear IH.
      destruct (objs !! q0) as [qo0|] eqn:Hq0.
      + destruct (decide (id ∈ allComponents qo0)) as [Hin|Hout].
        * rewrite elem_of_Set_add. split.
          -- intros [[->|]|[? ?]]; eauto 6.
          -- intros [|[[->|] ?]]; eauto.
        * split.
          -- intros [|[? ?]]; eauto.
          -- intros [|[[->|] (qo & Hqo & Hin)]]; eauto. congruence.
      + split.
        * intros [|[? ?]]; eauto.
        * intros [|[[->|] (qo & Hqo & Hin)]]; eauto. congruence. }
  rewrite Hgen. split.
  - intros [Hq|]; [now apply not_elem_of_nil in Hq | assumption].
  - now right.
Qed.

(** X5: the record [registerComponent] stores points at the last
    generation and the cursor bit, keeps the component as its store, and
    its interested set is, without repetition, exactly the live queries of
    the world whose [allComponents] lists the component; the other two
    query sets start empty. *)
Theorem registration_record (s : State) (id : nat) :
  let s' := (registerComponent (Obj id) s).2 in
  (registerComponent (Obj id) s).1 = Returned tt
  /\ exists r,
       world_componentMap (world s') !! id = Some r
       /\ generationId r = Z.of_nat (length (world_entityMasks (world s))) - 1
       /\ bitflag r = world_bitflag (world s)
       /\ store r = id
       /\ NoDup (queries r)
       /\ (forall q, q ∈ queries r
                     <-> q ∈ world_queries (world s)
                         /\ exists qo, queryObjects s !! q = Some qo
                                       /\ id ∈ allComponents qo)
       /\ notQueries r = [] /\ changedQueries r = []
       /\ (forall id', id' <> id ->
             world_componentMap (world s') !! id' = world_componentMap (world s) !! id').
Proof.
  intros s'. subst s'. rewrite registerComponent_run. split; [reflexivity |].
  exists (granted s id). split; [apply registered_record |].
  repeat (split; [reflexivity |]).
  split; [apply interested_NoDup |].
  split; [intros q; apply elem_of_interested |].
  repeat (split; [reflexivity |]).
  intros id' Hne. cbn [snd]. now rewrite registered_map, lookup_insert_ne.
Qed.

(** X6: [registerComponents] stops at the first null or undefined
    component: it fails with the registration error, the components before
    it are registered, in order, and none after it is looked at. *)
Theorem registerComponents_stops_at_null (s : State) (ids : list nat)
    (rest : list Component) :
  registerComponents ((Obj <$> ids) ++ Nullish :: rest) s
  = (Thrown NullComponent, (registerComponents (Obj <$> ids) s).2)
  /\ (registerComponents (Obj <$> ids) s).1 = Returned tt.
Proof.
  unfold registerComponents at 1. rewrite forEach_app. unfold bind.
  fold (registerComponents (Obj <$> ids)). rewrite registerComponents_run.
  split; reflexivity.
Qed.

End RegistrationFacts.

(** * Beyond the claims: attribute assignment *)

Section Attributes.

Lemma JsVal_nested_ind (P : JsVal -> Prop) :
  P VUndefined -> P VNull -> (forall b, P (VBoolean b)) -> (forall n, P (VNumber n)) ->
  (forall s, P (VString s)) ->
  (forall props, Forall (fun kv => P kv.2) props -> P (VObject props)) ->
  forall v, P v.
Proof.
  intros Hu Hn Hb Hnum Hs Hobj. fix IH 1. intros [| |b|n|s|props].
  - exact Hu.
  - exact Hn.
  - apply Hb.
  - apply Hnum.
  - apply Hs.
  - apply Hobj. induction props as [|[k v] props IHprops]; constructor.
    + apply IH.
    + exact IHprops.
Qed.

(** The walk over the keys, one key at a time. *)
Lemma walk_nil e : recursivelySetComponentAttributes e (VObject []) = ret tt.
Proof. reflexivity. Qed.

Lemma walk_cons e k v rest :
  recursivelySetComponentAttributes e (VObject ((k, v) :: rest))
  = (set_attribute e k v ;; recursivelySetComponentAttributes e (VObject rest)).
Proof. destruct v; reflexivity. Qed.

Lemma agrees_refl e store : agrees e store store.
Proof. intros path t cells Hl. exists cells. now repeat split. Qed.

Lemma agrees_trans e s1 s2 s3 : agrees e s1 s2 -> agrees e s2 s3 -> agrees e s1 s3.
Proof.
  intros H12 H23 path t cells Hl.
  destruct (H12 path t cells Hl) as (c2 & Hl2 & Hlen2 & Hc2).
  destruct (H23 path t c2 Hl2) as (c3 & Hl3 & Hlen3 & Hc3).
  exists c3. split; [exact Hl3 |]. split; [congruence |].
  intros i Hi. now rewrite Hc3, Hc2.
Qed.

Lemma assoc_assoc_set {V} (k k' : Key) (v : V) fields :
  assoc k' (assoc_set k v fields) = if decide (k = k') then Some v else assoc k' fields.
Proof.
  induction fields as [|[k0 v0] fields IH]; simpl.
  - destruct (decide (k = k')); reflexivity.
  - destruct (decide (k0 = k)) as [->|Hk0]; simpl.
    + destruct (decide (k = k')); reflexivity.
    + rewrite IH. destruct (decide (k0 = k')) as [->|]; [| reflexivity].
      now rewrite decide_False by congruence.
Qed.

(** A change inside the object behind a key is a change of the section. *)
Lemma agrees_written_back e section k child child' :
  get_prop section k = Returned child -> agrees e child child' ->
  agrees e section (written_back section k child').
Proof.
  intros Hget Hchild. destruct section as [| n | t cells | fields];
    try apply agrees_refl.
  simpl in Hget. injection Hget as Hget. unfold written_back.
  destruct (assoc k fields) as [c|] eqn:Hk; [| apply agrees_refl].
  simpl in Hget. subst c.
  assert (Hin : agrees e (SObject fields) (SObject (assoc_set k child' fields))).
  { intros [|name path] t cells Hl; [discriminate |]. simpl in Hl |- *.
    rewrite assoc_assoc_set. destruct (decide (k = KName name)) as [->|Hne].
    - rewrite Hk in Hl. simpl in Hl |- *. now apply Hchild.
    - exists cells. now repeat split. }
  destruct child; try apply agrees_refl; exact Hin.
Qed.

Lemma agrees_assign_index e target n target' :
  assign_index target e n = Returned target' -> agrees e target target'.
Proof.
  destruct target as [| m | t cells | fields]; simpl; intros [= <-].
  - intros [|name path] t' cells' Hl; [| discriminate]. injection Hl as <- <-.
    eexists. split; [reflexivity |]. split; [apply length_insert |].
    intros i Hi. now apply list_lookup_insert_ne.
  - intros [|name path] t cells Hl; [discriminate |]. simpl in Hl |- *.
    rewrite assoc_assoc_set, decide_False by discriminate.
    exists cells. now repeat split.
Qed.

Lemma agrees_set_attribute e k v section :
  (forall child, agrees e child (recursivelySetComponentAttributes e v child).2) ->
  agrees e section (set_attribute e k v section).2.
Proof.
  intros IH.
  assert (Hrec : agrees e section
    ((componentSection <- get ;;
      child <- lift (get_prop componentSection k) ;;
      fun section =>
        let '(r, child') := recursivelySetComponentAttributes e v child in
        (r, written_back section k child')) section).2).
  { unfold bind, get, lift. simpl.
    destruct (get_prop section k) as [child|err] eqn:Hget; [| apply agrees_refl].
    specialize (IH child).
    destruct (recursivelySetComponentAttributes e v child) as [r child']. simpl in *.
    now apply (agrees_written_back e section k child). }
  destruct v as [| |b|n|str|props]; try exact Hrec.
  unfold set_attribute, bind, get, lift, modify. simpl.
  destruct (get_prop section k) as [target|err] eqn:Hget; [| apply agrees_refl].
  destruct (assign_index target e n) as [target'|err] eqn:Hassign; [| apply agrees_refl].
  simpl. apply (agrees_written_back e section k target target' Hget).
  now apply (agrees_assign_index e target n).
Qed.

(** The walk never touches a value of another entity. *)
Lemma agrees_walk e data :
  forall section, agrees e section (recursivelySetComponentAttributes e data section).2.
Proof.
  induction data as [| |b|n|str|props IH] using JsVal_nested_ind;
    intros section; try apply agrees_refl.
  revert section. induction IH as [|[k v] props Hv _ IHprops]; intros section.
  - apply agrees_refl.
  - rewrite walk_cons. unfold bind.
    pose proof (agrees_set_attribute e k v section Hv) as Hstep.
    destruct (set_attribute e k v section) as [[[]|err] section1]; simpl in *.
    + apply (agrees_trans e section section1); [exact Hstep | apply IHprops].
    + exact Hstep.
Qed.

Lemma walk_app e pre rest section :
  recursivelySetComponentAttributes e (VObject (pre ++ rest)) section
  = (recursivelySetComponentAttributes e (VObject pre) ;;
     recursivelySetComponentAttributes e (VObject rest)) section.
Proof.
  revert section. induction pre as [|[k v] pre IH]; intros section.
  - reflexivity.
  - change (((k, v) :: pre) ++ rest) with ((k, v) :: (pre ++ rest)).
    rewrite !walk_cons. unfold bind in *.
    destruct (set_attribute e k v section) as [[[]|err] section1]; [apply IH | reflexivity].
Qed.

Lemma set_attribute_unknown_key e k v fields :
  assoc k fields = None ->
  set_attribute e k v (SObject fields)
  = (if skipped v then Returned tt else Thrown TypeError, SObject fields).
Proof.
  intros Hk.
  destruct v as [| |b|n|str|[|[k' v'] props]];
    unfold set_attribute, bind, get, lift, modify; simpl; rewrite Hk; simpl;
    try reflexivity.
  destruct v'; reflexivity.
Qed.

(** X7: for data whose keys are not names found on the prototype chain:
    when the walk reaches a key the section does not have, a number,
    [null] or a non-empty object under it raises a [TypeError], while
    [undefined], a boolean, a string or an empty object is passed over.
    The keys before it have been written and stay written; after a failure
    the keys behind it are never looked at.  (A key such as [constructor]
    is found on the prototype chain, and the walk goes on into a built-in
    object; the two hypotheses on the keys keep such data out.) *)
Theorem unknown_key (e : nat) (pre rest : list (Key * JsVal)) (k : Key) (v : JsVal)
    (section : StoreVal) (fields : list (Key * StoreVal)) :
  own_keys_only (VObject pre) = true ->
  inherited k = false ->
  recursivelySetComponentAttributes e (VObject pre) section
  = (Returned tt, SObject fields) ->
  assoc k fields = None ->
  recursivelySetComponentAttributes e (VObject (pre ++ (k, v) :: rest)) section
  = if skipped v
    then recursivelySetComponentAttributes e (VObject rest) (SObject fields)
    else (Thrown TypeError, SObject fields).
Proof.
  intros _ _ Hpre Hk. rewrite walk_app. unfold bind at 1. rewrite Hpre.
  rewrite walk_cons. unfold bind. rewrite (set_attribute_unknown_key e k v fields Hk).
  now destruct (skipped v).
Qed.

End Attributes.

Section UpdateFacts.
Context {ext : Collaborators}.

(** X8: [updateComponent] never writes to the world or to a query object,
    nor to the store of another component; in the store of its component
    every leaf keeps its element type and its length, and the values of all
    entities but the one it is called for.  This holds however the call
    ends. *)
Theorem updateComponent_frame (s : State) (c : Component) (eid : option nat)
    (data : JsVal) :
  let s' := (updateComponent c eid data s).2 in
  world s' = world s
  /\ queryObjects s' = queryObjects s
  /\ (forall id', c <> Obj id' -> componentStores s' !! id' = componentStores s !! id')
  /\ (forall id e, c = Obj id -> eid = Some e ->
        agrees e (deref (componentStores s) id) (deref (componentStores s') id)).
Proof.
  intros s'. subst s'.
  destruct (updateComponent_world c eid data s) as [Hw Hq].
  split; [exact Hw |]. split; [exact Hq |].
  destruct eid as [e|].
  2: { split; [reflexivity | intros id e _ [=]]. }
  destruct (decide (e ∈ world_entitySparseSet (world s))) as [He|He].
  2: { destruct (guard_not_found c e false data s He) as (_ & _ & ->).
       split; [reflexivity | intros; apply agrees_refl]. }
  destruct (hasComponent (world s) c e) as [[|]|err] eqn:Hh.
  - destruct (hasComponent_registered _ _ _ _ Hh eq_refl) as (id & r & masks & -> & _ & _).
    rewrite (updateComponent_present _ _ _ _ He Hh). simpl. split.
    + intros id' Hne. apply lookup_insert_ne. congruence.
    + intros id0 e0 [= <-] [= <-]. unfold deref at 2. rewrite lookup_insert_eq. simpl.
      apply agrees_walk.
  - rewrite (updateComponent_absent _ _ _ _ He Hh).
    split; [reflexivity | intros; apply agrees_refl].
  - unfold updateComponent, bind, get, lift. simpl.
    rewrite (entityExists_true _ _ He), Hh. simpl.
    split; [reflexivity | intros; apply agrees_refl].
Qed.

(** X9: [addAndPartiallyFillComponent] on an existing entity of a
    well-formed world always runs the walk: its outcome is the outcome of
    the walk over the store the add left, and its state is the state of
    the add with that store written.  When the walk fails the add is not
    undone: the component stays attached. *)
Theorem fill_after_add (s : State) (id e : nat) (data : JsVal) (reset : bool) :
  wf_world (world s) ->
  e ∈ world_entitySparseSet (world s) ->
  let s1 := (addComponent (Obj id) (Some e) reset s).2 in
  let walk := recursivelySetComponentAttributes e data (deref (componentStores s1) id) in
  let filled := addAndPartiallyFillComponent (Obj id) (Some e) data reset s in
  filled = (walk.1, set_componentStores (<[id := walk.2]> (componentStores s1)) s1)
  /\ hasComponent (world filled.2) (Obj id) e = Returned true.
Proof.
  intros Hwf He s1 walk filled.
  destruct (addComponent_spec id e reset s Hwf He)
    as (s' & r & Hrun & _ & _ & _ & Hset & _ & _ & Hhas).
  assert (Hs1 : s1 = s') by (subst s1; now rewrite Hrun).
  assert (Hfilled : filled
    = (walk.1, set_componentStores (<[id := walk.2]> (componentStores s1)) s1)).
  { subst filled walk. unfold addAndPartiallyFillComponent, bind. rewrite Hs1, Hrun.
    apply updateComponent_present; [now rewrite Hset | exact Hhas]. }
  split; [exact Hfilled |]. rewrite Hfilled, Hs1. exact Hhas.
Qed.

(** X10: the reset of [addComponent] happens only when the call attaches
    the component: on an existing entity of a coherent world, with
    [reset = true], the store of the component is replaced by
    [resetStoreFor] of it when the component was absent, and no store is
    touched when it was already attached. *)
Theorem add_reset_only_when_attaching (s : State) (id e : nat) :
  coherent (world s) ->
  e ∈ world_entitySparseSet (world s) ->
  exists present,
    hasComponent (world s) (Obj id) e = Returned present
    /\ componentStores (addComponent (Obj id) (Some e) true s).2
       = if present
         then componentStores s
         else <[id := resetStoreFor (deref (componentStores s) id) e]>
                (componentStores s).
Proof.
  intros Hcoh He. pose proof (coh_wf _ Hcoh) as Hwf.
  assert (Hreg : forall s0 r,
    wf_world (world s0) -> e ∈ world_entitySparseSet (world s0) ->
    world_componentMap (world s0) !! id = Some r ->
    exists present,
      hasComponent (world s0) (Obj id) e = Returned present
      /\ componentStores (addComponent (Obj id) (Some e) true s0).2
         = if present
           then componentStores s0
           else <[id := resetStoreFor (deref (componentStores s0) id) e]>
                  (componentStores s0)).
  { intros s0 r Hwf0 He0 Hr0.
    destruct (wf_cell _ _ _ _ Hwf0 Hr0 He0) as (masks & attached & Hg & Hlt & Ha).
    rewrite (addComponent_registered_paths _ _ _ _ _ He0 Hr0), Hg, Ha.
    rewrite (hasComponent_wf _ _ _ e Hwf0 Hr0).
    eexists. split; [reflexivity |]. now destruct (bool_decide _). }
  destruct (world_componentMap (world s) !! id) as [r|] eqn:Hr.
  - now apply (Hreg s r).
  - exists false. split; [now apply hasComponent_unregistered |].
    rewrite (addComponent_unregistered _ _ _ _ He Hr).
    destruct (Hreg (registered id s) (granted s id)) as (present & Hh & ->).
    + now apply wf_registered.
    + now rewrite registered_entities.
    + apply registered_record.
    + rewrite (registered_absent id s e Hwf (coh_clear _ Hcoh)) in Hh.
      now injection Hh as <-.
Qed.

End UpdateFacts.

(** * Beyond the claims: resizing components *)

Section ResizeFacts.
Context {storage : Storage}.

Lemma resize_each size ids lib :
  forEach ids (fun component =>
    modify (fun lib =>
      mkLibrary (components lib)
        (<[component := resizeStore (deref (stores lib) component) size]> (stores lib))))
    lib
  = (Returned tt,
     mkLibrary (components lib)
       (foldl (fun m id => <[id := resizeStore (deref m id) size]> m) (stores lib) ids)).
Proof.
  revert lib. induction ids as [|id ids IH]; intros lib.
  - destruct lib; reflexivity.
  - cbn [forEach foldl]. unfold bind, modify at 1. now rewrite IH.
Qed.

Lemma resize_fold_lookup size ids (m : gmap nat StoreVal) id :
  NoDup ids ->
  foldl (fun m id => <[id := resizeStore (deref m id) size]> m) m ids !! id
  = if decide (id ∈ ids) then Some (resizeStore (deref m id) size) else m !! id.
Proof.
  intros Hnd. revert m. induction Hnd as [|id0 ids Hid0 Hnd IH]; intros m; cbn [foldl].
  - destruct (decide (id ∈ [])) as [Hin|]; [| reflexivity].
    now apply not_elem_of_nil in Hin.
  - rewrite IH. destruct (decide (id = id0)) as [->|Hne].
    + destruct (decide (id0 ∈ ids)) as [|_]; [contradiction |].
      destruct (decide (id0 ∈ id0 :: ids)) as [_|Hout]; [apply lookup_insert_eq |].
      exfalso. apply Hout, list_elem_of_here.
    + unfold deref at 1. rewrite !lookup_insert_ne by congruence.
      destruct (decide (id ∈ ids)) as [Hin|Hout];
        destruct (decide (id ∈ id0 :: ids)) as [Hin'|Hout']; try reflexivity.
      * exfalso. apply Hout'. now apply list_elem_of_further.
      * exfalso. apply elem_of_cons in Hin'. destruct Hin'; congruence.
Qed.

(** X12: [resizeComponents] passes every listed store through
    [resizeStore] once, with the new size, and touches nothing else: the
    list is as it was and a store that is not listed, such as the one of a
    tag component, is as it was. *)
Theorem resizeComponents_resizes_listed (lib : Library) (size id : nat) :
  library_ok lib ->
  let lib' := (resizeComponents size lib).2 in
  (resizeComponents size lib).1 = Returned tt
  /\ components lib' = components lib
  /\ stores lib' !! id
     = (if decide (id ∈ components lib)
        then (fun v => resizeStore v size) <$> stores lib !! id
        else stores lib !! id)
  /\ library_ok lib'.
Proof.
  intros [Hnd Hbound] lib'. subst lib'. rewrite Forall_forall in Hbound.
  unfold resizeComponents, bind, get. simpl. rewrite resize_each. simpl.
  assert (Hlook : forall x,
    foldl (fun m id => <[id := resizeStore (deref m id) size]> m) (stores lib)
          (components lib) !! x
    = if decide (x ∈ components lib)
      then (fun v => resizeStore v size) <$> stores lib !! x
      else stores lib !! x).
  { intros x. rewrite (resize_fold_lookup size _ _ x Hnd).
    destruct (decide (x ∈ components lib)) as [Hin|]; [| reflexivity].
    destruct (Hbound x Hin) as [v Hv]. unfold deref. now rewrite Hv. }
  split; [reflexivity |]. split; [reflexivity |]. split; [apply Hlook |].
  split; [exact Hnd |]. simpl. apply Forall_forall.
  intros x Hx. rewrite Hlook, decide_True by exact Hx.
  destruct (Hbound x Hx) as [v ->]. simpl. eauto.
Qed.

End ResizeFacts.

(** * Beyond the claims: edges, sequences of calls and the allocator *)

Section MoreFacts.
Context {ext : Collaborators}.

(** X13: [hasComponent] answers false, and does not fail, for a null or
    undefined component, for a component the world has no record of, and,
    in a well-formed world, for an entity id beyond the end of the mask
    arrays; in a well-formed world it never throws. *)
Theorem hasComponent_edges (w : World) (c : Component) (e : nat) :
  wf_world w ->
  hasComponent w Nullish e = Returned false
  /\ (componentMap_get w c = None -> hasComponent w c e = Returned false)
  /\ ((world_size w <= e)%nat -> hasComponent w c e = Returned false)
  /\ exists present, hasComponent w c e = Returned present.
Proof.
  intros Hwf. split; [reflexivity |]. split; [apply hasComponent_unregistered |].
  destruct (componentMap_get w c) as [r|] eqn:Hc.
  - destruct c as [|id]; [discriminate |]. simpl in Hc.
    rewrite (hasComponent_wf _ _ _ e Hwf Hc). split; [| eauto].
    intros Hout. f_equal. apply bool_decide_eq_false_2.
    destruct (wf_record _ _ _ Hwf Hc) as (Hb & masks & Hg & Hlen & _).
    unfold mask_word. rewrite Hg. simpl.
    rewrite lookup_ge_None_2 by lia. simpl. rewrite Z.land_0_l. lia.
  - rewrite (hasComponent_unregistered _ _ _ Hc). split; eauto.
Qed.

(** X14: registering a component that has no record changes no membership
    in a coherent world, also when the registration appends a generation:
    [hasComponent] answers as before for every component and entity, and
    the new component is on no entity. *)
Theorem registration_frame (s : State) (id id' e : nat) :
  coherent (world s) ->
  world_componentMap (world s) !! id = None ->
  hasComponent (world (registerComponent (Obj id) s).2) (Obj id') e
  = hasComponent (world s) (Obj id') e
  /\ hasComponent (world (registerComponent (Obj id) s).2) (Obj id) e = Returned false.
Proof.
  intros Hcoh Hnone. rewrite registerComponent_run. simpl. split.
  - apply registered_frame; [apply (coh_wf _ Hcoh) | apply (coh_clear _ Hcoh) | exact Hnone].
  - apply registered_absent; [apply (coh_wf _ Hcoh) | apply (coh_clear _ Hcoh)].
Qed.

(** X15: in a coherent world, after [addComponent] on an existing entity
    the attached-component set of the entity lists the component, and after
    [removeComponent] it does not. *)
Theorem attached_set_tracks (s : State) (id e : nat) (reset : bool) :
  coherent (world s) ->
  e ∈ world_entitySparseSet (world s) ->
  (exists attached,
      world_entityComponents (world (addComponent (Obj id) (Some e) reset s).2) !! e
      = Some attached /\ id ∈ attached)
  /\ (exists attached,
        world_entityComponents (world (removeComponent (Obj id) (Some e) reset s).2) !! e
        = Some attached /\ id ∉ attached).
Proof.
  intros Hcoh He. pose proof (coh_wf _ Hcoh) as Hwf. split.
  - pose proof (addComponent_coherent (Obj id) (Some e) reset s Hcoh) as Hcoh'.
    destruct (addComponent_spec id e reset s Hwf He)
      as (s' & r & Hrun & Hwf' & _ & _ & Hset & _ & _ & Hhas).
    rewrite Hrun in *. simpl in *.
    destruct (wf_entities _ Hwf' e) as [_ [attached Ha]]; [now rewrite Hset |].
    exists attached. split; [exact Ha |].
    now apply (coh_mirror _ Hcoh' e attached id Ha).
  - pose proof (removeComponent_coherent (Obj id) (Some e) reset s Hcoh) as Hcoh'.
    assert (Hafter : exists s',
      removeComponent (Obj id) (Some e) reset s = (Returned tt, s')
      /\ world_entitySparseSet (world s') = world_entitySparseSet (world s)
      /\ hasComponent (world s') (Obj id) e = Returned false).
    { destruct (world_componentMap (world s) !! id) as [r|] eqn:Hr.
      - destruct (removeComponent_registered_spec id e reset r s Hwf He Hr)
          as (s' & Hrun & _ & _ & Hset & _ & _ & Hhas). eauto.
      - pose proof (hasComponent_unregistered (world s) (Obj id) e Hr) as Hh.
        exists s. now rewrite (removeComponent_absent _ _ _ _ He Hh). }
    destruct Hafter as (s' & Hrun & Hset & Hhas). rewrite Hrun in *. simpl in *.
    destruct (wf_entities _ (coh_wf _ Hcoh') e) as [_ [attached Ha]]; [now rewrite Hset |].
    exists attached. split; [exact Ha |].
    rewrite (coh_mirror _ Hcoh' e attached id Ha), Hhas. discriminate.
Qed.

Lemma fill_coherent c eid data reset s :
  coherent (world s) ->
  coherent (world (addAndPartiallyFillComponent c eid data reset s).2).
Proof.
  intros Hcoh. unfold addAndPartiallyFillComponent, bind.
  pose proof (addComponent_coherent c eid reset s Hcoh) as Hadd.
  destruct (addComponent c eid reset s) as [[[]|err] s1]; simpl in *; [| exact Hadd].
  now rewrite (proj1 (updateComponent_world c eid data s1)).
Qed.

(** X16: whatever sequence of adds, removes, updates and fills is run on
    a coherent world, with whatever arguments and with the exceptions
    caught, the world stays coherent: the membership invariant holds,
    components sit on pairwise different bits, and the attached-component
    sets mirror the masks. *)
Theorem coherent_after_calls (ks : list Call) (s : State) :
  coherent (world s) ->
  coherent (world (after_calls ks s))
  /\ membership_holds (world (after_calls ks s))
  /\ distinct_bits (world (after_calls ks s))
  /\ attached_mirror (world (after_calls ks s)).
Proof.
  intros Hcoh.
  assert (Hall : coherent (world (after_calls ks s))).
  { unfold after_calls. revert s Hcoh. induction ks as [|k ks IH]; intros s Hcoh.
    - exact Hcoh.
    - cbn [foldl]. apply IH. destruct k as [c eid reset|c eid reset|c eid data|c eid data reset];
        cbn [call].
      + now apply addComponent_coherent.
      + now apply removeComponent_coherent.
      + now rewrite (proj1 (updateComponent_world c eid data s)).
      + now apply fill_coherent. }
  split; [exact Hall |].
  split; [apply membership_of_wf, (coh_wf _ Hall) |].
  split; [apply (coh_distinct _ Hall) | apply (coh_mirror _ Hall)].
Qed.

(** X17: from any well-formed world a registration grants the cursor bit of
    the last generation; the cursor then doubles and the generations stay,
    unless the cursor was 2^30, in which case it goes back to 1 and one
    all-zero generation of the world's size is appended.  The cursor stays
    a power of two up to 2^30 and the world stays well-formed. *)
Theorem allocator_step (s : State) (id : nat) :
  wf_world (world s) ->
  let s' := (registerComponent (Obj id) s).2 in
  wf_world (world s')
  /\ valid_bitflag (world_bitflag (world s'))
  /\ (world_bitflag (world s) < 2 ^ 30 ->
      world_bitflag (world s') = 2 * world_bitflag (world s)
      /\ world_entityMasks (world s') = world_entityMasks (world s))
  /\ (world_bitflag (world s) = 2 ^ 30 ->
      world_bitflag (world s') = 1
      /\ world_entityMasks (world s')
         = world_entityMasks (world s) ++ [replicate (world_size (world s)) 0]).
Proof.
  intros Hwf s'. subst s'. rewrite registerComponent_run. cbn [snd].
  pose proof (wf_registered id s Hwf) as Hwf'.
  split; [exact Hwf' |]. split; [apply (wf_cursor _ Hwf') |].
  unfold registered, next_cursor. simpl.
  destruct (Z.leb_spec (2 ^ 31) (world_bitflag (world s) * 2)); simpl; split; intros Hb;
    try lia; split; reflexivity || lia.
Qed.

(** X18: a null or undefined component on an existing entity:
    [addComponent] and [registerComponent] fail with the registration
    error and leave the state as it was, while [removeComponent] and
    [updateComponent] return normally and leave the state as it was. *)
Theorem null_component (s : State) (e : nat) (reset : bool) (data : JsVal) :
  e ∈ world_entitySparseSet (world s) ->
  registerComponent Nullish s = (Thrown NullComponent, s)
  /\ addComponent Nullish (Some e) reset s = (Thrown NullComponent, s)
  /\ removeComponent Nullish (Some e) reset s = (Returned tt, s)
  /\ updateComponent Nullish (Some e) data s = (Returned tt, s)
  /\ addAndPartiallyFillComponent Nullish (Some e) data reset s
     = (Thrown NullComponent, s).
Proof.
  intros He. split; [reflexivity |].
  split; [now apply addComponent_Nullish |].
  split; [now apply removeComponent_absent |].
  split; [now apply updateComponent_absent |].
  unfold addAndPartiallyFillComponent, bind.
  now rewrite (addComponent_Nullish _ _ _ He).
Qed.

End MoreFacts.

(** * The further facts on the example world *)

Section MoreInstances.
Import Example.

(** Shows a world without records, bits or attachments coherent, by
    evaluation. *)
Ltac coherent_by_evaluation :=
  apply coherent_fresh; [wf_by_evaluation | reflexivity | by_evaluation | by_evaluation].

Lemma coherence_kept_witness : coherent (world state2).
Proof.
  assert (Hcoh : coherent (world state0)) by coherent_by_evaluation.
  exact (proj1 (@coherence_kept spec_collaborators state0 (Obj 0) (Some 1%nat) false
                  VNull Hcoh)).
Defined.

Lemma membership_frame_witness :
  hasComponent (world state2) (Obj 0) 0 = hasComponent (world state0) (Obj 0) 0.
Proof.
  assert (Hcoh : coherent (world state0)) by coherent_by_evaluation.
  assert (Hne : Obj 0 <> Obj 0 \/ Some 1%nat <> Some 0%nat) by (right; discriminate).
  exact (proj1 (@membership_frame spec_collaborators state0 (Obj 0) (Some 1%nat) false
                  0%nat 0%nat Hcoh Hne)).
Defined.

Lemma reregistration_detaches_witness :
  hasComponent (world state2) (Obj 0) 1 = Returned true
  /\ hasComponent (world (registerComponent (Obj 0) state2).2) (Obj 0) 1 = Returned false.
Proof.
  assert (Hcoh : coherent (world state2))
    by (apply (@addComponent_coherent spec_collaborators); coherent_by_evaluation).
  split; [vm_compute; reflexivity |].
  exact (proj1 (reregistration_detaches state2 0%nat 1%nat Hcoh)).
Defined.

Lemma add_remove_round_trip_witness :
  world (@removeComponent spec_collaborators (Obj 0) (Some 1%nat) true
           (@addComponent spec_collaborators (Obj 0) (Some 1%nat) false state1).2).2
  = world state1.
Proof.
  assert (Hcoh : coherent (world state1)).
  { unfold state1. rewrite registerComponent_run.
    apply coherent_registered; [coherent_by_evaluation | reflexivity]. }
  assert (He : 1%nat ∈ world_entitySparseSet (world state1)) by by_evaluation.
  assert (Hr : world_componentMap (world state1) !! 0%nat = Some (granted state0 0))
    by (vm_compute; reflexivity).
  assert (Hh : hasComponent (world state1) (Obj 0) 1 = Returned false)
    by (vm_compute; reflexivity).
  exact (proj2 (proj2 (@add_remove_round_trip spec_collaborators state1 0%nat 1%nat
                         (granted state0 0) false true Hcoh He Hr Hh))).
Defined.

Lemma unknown_key_witness :
  recursivelySetComponentAttributes 1
    (VObject [(hp, VNumber 10); (KName "bogus", VNumber 1); (pos, VObject [(x, VNumber 1)])])
    store0
  = (Thrown TypeError,
     pos_hp_store JS.Float32 JS.Float32 JS.Uint8 [0; 7; 0; 0] [0; 8; 0; 0] [0; 10; 0; 0]).
Proof.
  apply (unknown_key 1 [(hp, VNumber 10)] [(pos, VObject [(x, VNumber 1)])]
           (KName "bogus") (VNumber 1) store0
           [(pos, SObject [(x, STypedArray JS.Float32 [0; 7; 0; 0]);
                           (y, STypedArray JS.Float32 [0; 8; 0; 0])]);
            (hp, STypedArray JS.Uint8 [0; 10; 0; 0])]);
    vm_compute; reflexivity.
Defined.

Lemma fill_after_add_witness :
  (@addAndPartiallyFillComponent spec_collaborators (Obj 0) (Some 1%nat) VNull false
     state0).1 = Thrown TypeError
  /\ hasComponent
       (world (@addAndPartiallyFillComponent spec_collaborators (Obj 0) (Some 1%nat)
                 VNull false state0).2) (Obj 0) 1
     = Returned true.
Proof.
  assert (Hwf : wf_world (world state0)) by wf_by_evaluation.
  assert (He : 1%nat ∈ world_entitySparseSet (world state0)) by by_evaluation.
  destruct (@fill_after_add spec_collaborators state0 0%nat 1%nat VNull false Hwf He)
    as [Hfilled Hhas].
  split; [now rewrite Hfilled | exact Hhas].
Defined.

Lemma add_reset_only_when_attaching_witness :
  componentStores (@addComponent spec_collaborators (Obj 0) (Some 1%nat) true state2).2
  = componentStores state2.
Proof.
  assert (Hcoh : coherent (world state2))
    by (apply (@addComponent_coherent spec_collaborators); coherent_by_evaluation).
  assert (He : 1%nat ∈ world_entitySparseSet (world state2)) by by_evaluation.
  destruct (@add_reset_only_when_attaching spec_collaborators state2 0%nat 1%nat Hcoh He)
    as (present & Hh & Hstores).
  assert (Hp : hasComponent (world state2) (Obj 0) 1 = Returned true)
    by (vm_compute; reflexivity).
  rewrite Hp in Hh. injection Hh as <-. exact Hstores.
Defined.

Lemma resizeComponents_resizes_listed_witness :
  stores (@resizeComponents example_storage 6 example_library).2 !! 0%nat
  = Some (STypedArray JS.Float32 [0; 7; 0; 0; 0; 0])
  /\ stores (@resizeComponents example_storage 6 example_library).2 !! 1%nat
     = Some (SObject []).
Proof.
  assert (Hok : library_ok example_library) by (split; by_evaluation).
  destruct (@resizeComponents_resizes_listed example_storage example_library 6%nat
              0%nat Hok) as (_ & _ & -> & _).
  destruct (@resizeComponents_resizes_listed example_storage example_library 6%nat
              1%nat Hok) as (_ & _ & -> & _).
  split; vm_compute; reflexivity.
Defined.

Lemma hasComponent_edges_witness :
  hasComponent (world state2) (Obj 0) 9 = Returned false.
Proof.
  assert (Hwf : wf_world (world state2)) by wf_by_evaluation.
  apply (proj1 (proj2 (proj2 (hasComponent_edges (world state2) (Obj 0) 9%nat Hwf)))).
  vm_compute. lia.
Defined.

Lemma registration_frame_witness :
  hasComponent (world (registerComponent (Obj 3) state2).2) (Obj 0) 1
  = hasComponent (world state2) (Obj 0) 1.
Proof.
  assert (Hcoh : coherent (world state2))
    by (apply (@addComponent_coherent spec_collaborators); coherent_by_evaluation).
  assert (Hnone : world_componentMap (world state2) !! 3%nat = None)
    by (vm_compute; reflexivity).
  exact (proj1 (registration_frame state2 3%nat 0%nat 1%nat Hcoh Hnone)).
Defined.

Lemma attached_set_tracks_witness :
  exists attached,
    world_entityComponents
      (world (@addComponent spec_collaborators (Obj 0) (Some 1%nat) false state0).2)
    !! 1%nat = Some attached
    /\ 0%nat ∈ attached.
Proof.
  assert (Hcoh : coherent (world state0)) by coherent_by_evaluation.
  assert (He : 1%nat ∈ world_entitySparseSet (world state0)) by by_evaluation.
  exact (proj1 (@attached_set_tracks spec_collaborators state0 0%nat 1%nat false Hcoh He)).
Defined.

Lemma coherent_after_calls_witness :
  attached_mirror
    (world (@after_calls spec_collaborators
              [Fill (Obj 0) (Some 1%nat) data0 false;
               Add (Obj 2) (Some 0%nat) true;
               Remove (Obj 0) (Some 1%nat) true;
               Update (Obj 2) (Some 0%nat) VNull;
               Add Nullish None false]
              state0)).
Proof.
  assert (Hcoh : coherent (world state0)) by coherent_by_evaluation.
  exact (proj2 (proj2 (proj2 (@coherent_after_calls spec_collaborators _ state0 Hcoh)))).
Defined.

Lemma allocator_step_witness :
  world_bitflag (world (registerComponent (Obj 0) state0).2) = 2.
Proof.
  assert (Hwf : wf_world (world state0)) by wf_by_evaluation.
  destruct (allocator_step state0 0%nat Hwf) as (_ & _ & Hdouble & _).
  apply Hdouble. vm_compute. reflexivity.
Defined.

Lemma null_component_witness :
  @addComponent spec_collaborators Nullish (Some 1%nat) false state0
  = (Thrown NullComponent, state0)
  /\ @removeComponent spec_collaborators Nullish (Some 1%nat) true state0
     = (Returned tt, state0).
Proof.
  assert (He : 1%nat ∈ world_entitySparseSet (world state0)) by by_evaluation.
  destruct (@null_component spec_collaborators state0 1%nat false VNull He)
    as (_ & Hadd & _).
  destruct (@null_component spec_collaborators state0 1%nat true VNull He)
    as (_ & _ & Hremove & _).
  split; [exact Hadd | exact Hremove].
Defined.

End MoreInstances.
